(** * A shallow embedding of [src/src/compiler.ts] (api-compiler)

    Value names are Rocq [string]s.  JavaScript's default [Array.prototype.sort]
    orders strings by UTF-16 code units; on the names used below (ASCII) this
    is the byte order of [String.leb].  A JS [Map] (the registry [deps], the
    two caches) is an association list that keeps insertion order, and a JS
    [Set] used only for membership is a list queried with [mem]. *)

From Stdlib Require Import List String Ascii Bool Arith Lia ZArith Permutation.
From Stdlib Require OrdersEx RelationClasses.
Import ListNotations.

Local Open Scope list_scope.
Set Warnings "-register-all".


Infix "+++" := String.append (at level 60, right associativity).

(** ** Basic containers *)

Definition name := string.

Definition mem (x : name) (s : list name) : bool := existsb (String.eqb x) s.
Arguments mem : simpl never.

(** [JSMap A]: a JS [Map<string, A>]; [set] on a present key replaces the
    value in place, on an absent key appends. *)
Definition JSMap (A : Type) := list (string * A).

Fixpoint map_get {A} (m : JSMap A) (k : string) : option A :=
  match m with
  | [] => None
  | (k', v) :: m' => if String.eqb k k' then Some v else map_get m' k
  end.

Fixpoint map_set {A} (m : JSMap A) (k : string) (v : A) : JSMap A :=
  match m with
  | [] => [(k, v)]
  | (k', v') :: m' =>
      if String.eqb k k' then (k', v) :: m' else (k', v') :: map_set m' k v
  end.

Definition map_values {A} (m : JSMap A) : list A := map snd m.

(** [arr.sort()] on strings. *)
Fixpoint insert (x : string) (l : list string) : list string :=
  match l with
  | [] => [x]
  | y :: l' => if String.leb x y then x :: l else y :: insert x l'
  end.

Definition sort (l : list string) : list string := fold_right insert [] l.

(** [arr.join(sep)]. *)
Fixpoint join (sep : string) (l : list string) : string :=
  match l with
  | [] => ""
  | [x] => x
  | x :: l' => x +++ sep +++ join sep l'
  end.

Definition NUL : string := String (ascii_of_nat 0) EmptyString.

(** ** Values and operations *)

(** Runtime values.  [VRef] is a reference to a JS object in a store
    (used by the interpreter model); [VPromise v] is a promise resolved to
    [v]. *)
Inductive val : Type :=
| VNum (z : Z)
| VNaN
| VUndef
| VList (vs : list val)
| VPromise (v : val)
| VRef (l : nat).

(** [interface OpSpec { inputs; outputs; fn; async? }] *)
Record OpSpec := {
  inputs : list name;
  outputs : name;
  fn : list val -> val;
  async : bool
}.

(** The registry built by the constructor from explicit [OpSpec]s:
    [this.deps.set(spec.outputs, spec)] for each spec, in order.  (The
    branch that parses a function's source text with a regular expression
    builds an [OpSpec] whose [outputs] is the key as well.) *)
Definition make_deps (optable : list OpSpec) : JSMap OpSpec :=
  fold_left (fun d spec => map_set d (outputs spec) spec) optable [].

(** Every entry is keyed by its own [outputs]. *)
Definition deps_wf (deps : JSMap OpSpec) : Prop :=
  forall k op, map_get deps k = Some op -> outputs op = k.

(** ** [Compiler.traverse]

    The JS array [stack] is modelled with its top (the end of the array) at
    the head of the list: [[...reqs]] is [rev reqs], [pop] takes the head and
    [push(...op.inputs)] puts [rev op.inputs] in front.  [operations.push]
    and [params.push] append at the end.  The [while] loop runs on fuel;
    [None] means the fuel ran out. *)
Fixpoint traverse_loop (fuel : nat) (deps : JSMap OpSpec) (precomp : list name)
    (visited operations params stack : list name)
    : option (list name * list name) :=
  match stack with
  | [] => Some (operations, params)
  | v :: stack' =>
      match fuel with
      | 0 => None
      | S fuel' =>
          if mem v visited then
            traverse_loop fuel' deps precomp visited operations params stack'
          else
            match map_get deps v with
            | Some op =>
                if mem v precomp then
                  traverse_loop fuel' deps precomp (v :: visited) operations
                    (params ++ [v]) stack'
                else
                  traverse_loop fuel' deps precomp (v :: visited)
                    (operations ++ [v]) params (rev (inputs op) ++ stack')
            | None =>
                traverse_loop fuel' deps precomp (v :: visited) operations
                  (params ++ [v]) stack'
            end
      end
  end.

(** Enough fuel: one iteration per requested name plus one per declared
    input of every operation (each operation is expanded at most once). *)
Definition traverse_fuel (deps : JSMap OpSpec) (reqs : list name) : nat :=
  List.length reqs + list_sum (map (fun '(_, op) => List.length (inputs op)) deps).

Definition traverse (deps : JSMap OpSpec) (reqs : list name) (precomp : list name)
    : option (list name * list name) :=
  match traverse_loop (traverse_fuel deps reqs) deps precomp [] [] [] (rev reqs) with
  | Some (operations, params) => Some (operations, sort params)
  | None => None
  end.

(** ** [Compiler.linearize] *)

(** The mutable copy [{ inputs, outputs, async: !!async }] of an operation. *)
Record node := { nd_inputs : list name; nd_outputs : name; nd_async : bool }.

(** One scan of the [for (const node of nodes)] loop: returns the grown
    [computed] set, the async and sync blocks, and [n_nodes]. *)
Fixpoint lin_pass (deps : JSMap OpSpec) (computed : list name) (nodes : list node)
    : list name * list OpSpec * list OpSpec * list node :=
  match nodes with
  | [] => (computed, [], [], [])
  | nd :: rest =>
      let ins := filter (fun v => negb (mem v computed)) (nd_inputs nd) in
      match ins with
      | _ :: _ =>
          let '(c, a, s, n) := lin_pass deps computed rest in
          (c, a, s, {| nd_inputs := ins; nd_outputs := nd_outputs nd;
                       nd_async := nd_async nd |} :: n)
      | [] =>
          let '(c, a, s, n) := lin_pass deps (nd_outputs nd :: computed) rest in
          (* [deps.get(node.outputs)!]: every node is a registered operation *)
          match map_get deps (nd_outputs nd) with
          | Some op => if nd_async nd then (c, op :: a, s, n) else (c, a, op :: s, n)
          | None => (c, a, s, n)
          end
      end
  end.

Definition block := (list OpSpec * list OpSpec)%type.

(** The [while (nodes.length)] loop, on fuel. *)
Fixpoint lin_loop (fuel : nat) (deps : JSMap OpSpec) (computed : list name)
    (nodes : list node) (blocks : list block) : option (list block) :=
  match nodes with
  | [] => Some blocks
  | _ :: _ =>
      match fuel with
      | 0 => None
      | S fuel' =>
          let '(c, a, s, n) := lin_pass deps computed nodes in
          lin_loop fuel' deps c n (blocks ++ [(a, s)])
      end
  end.

Definition mk_node (op : OpSpec) : node :=
  {| nd_inputs := inputs op; nd_outputs := outputs op; nd_async := async op |}.

Definition lin_nodes (deps : JSMap OpSpec) (operations : list name) : list node :=
  flat_map (fun v => match map_get deps v with
                     | Some op => [mk_node op]
                     | None => []
                     end) operations.

Record linearized := {
  l_blocks : list block;
  l_params : list name;
  l_intermediates : list name
}.

Definition linearize_fuel (fuel : nat) (deps : JSMap OpSpec) (reqs pre : list name)
    : option linearized :=
  match traverse deps reqs pre with
  | None => None
  | Some (operations, params) =>
      match lin_loop fuel deps (pre ++ params) (lin_nodes deps operations) [] with
      | None => None
      | Some blocks =>
          Some {| l_blocks := blocks; l_params := params;
                  l_intermediates := filter (fun v => negb (mem v reqs)) operations |}
      end
  end.

(** A scan that schedules nothing leaves [nodes] and [computed] unchanged, so
    after [List.length nodes] productive scans the loop either has finished or
    runs forever; [linearize] returns [None] exactly in the latter case. *)
Definition lin_bound (deps : JSMap OpSpec) (reqs pre : list name) : nat :=
  match traverse deps reqs pre with
  | Some (operations, _) => S (List.length operations)
  | None => 0
  end.

Definition linearize (deps : JSMap OpSpec) (reqs pre : list name) : option linearized :=
  linearize_fuel (lin_bound deps reqs pre) deps reqs pre.

(** ** The generated calculator body

    [compile] prints a JS function body; it is kept here as the statement
    list it is printed from.  [IdV n] is the identifier [v<n>], [IdA n] is
    [a<n>], and [IdUndefined] is the text [undefined] that a template
    prints for a name with no identifier. *)
Inductive ident := IdV (n : nat) | IdA (n : nat) | IdUndefined.

Definition ident_eqb (x y : ident) : bool :=
  match x, y with
  | IdV n, IdV m => Nat.eqb n m
  | IdA n, IdA m => Nat.eqb n m
  | IdUndefined, IdUndefined => true
  | _, _ => false
  end.

Inductive expr :=
| ENum (n : nat)                              (* a numeric literal *)
| EVar (x : ident)
| ECall (f : ident) (args : list ident)       (* formulas.f(args) *)
| EAll (calls : list (ident * list ident))    (* Promise.all([calls]) *)
| EAwait (e : expr).

Inductive stmt :=
| SConst (x : ident) (e : expr)               (* const x = e; *)
| SConstArr (xs : list ident) (e : expr).     (* const [xs] = e; *)

(** [const {'k':x, ...} = args; calcs; return {'r':x, ...};] *)
Record fbody := {
  b_args : JSMap ident;
  b_calcs : list stmt;
  b_ret : JSMap ident
}.

(** [interface SerializedFn] *)
Record SerializedFn := {
  sf_formulas : JSMap ident;
  sf_params : list name;
  sf_returns : list name;
  sf_isAsync : bool;
  sf_body : fbody
}.

(** *** Identifier assignment in [compile] *)

Definition id_of (m : JSMap ident) (o : name) : ident :=
  match map_get m o with Some x => x | None => IdUndefined end.

(** [ids = { ...pids, ...vids }]: a [vids] entry wins. *)
Definition ids_get (pids vids : JSMap ident) (p : name) : ident :=
  match map_get vids p with
  | Some x => x
  | None => id_of pids p
  end.

(** [m[o] = `v${ count++ }`] *)
Definition assign_id (st : JSMap ident * nat) (o : name) : JSMap ident * nat :=
  let '(m, count) := st in (map_set m o (IdV count), S count).

Definition assign_pids (params : list name) : JSMap ident * nat :=
  fold_left assign_id params ([], 0).

(** The loop over [blocks] that fills [vids] and sets [isAsync]. *)
Definition assign_vids (count : nat) (blocks : list block) : JSMap ident * nat * bool :=
  fold_left (fun '(m, c, isA) '(a_block, s_block) =>
               let st1 := fold_left (fun st op => assign_id st (outputs op)) a_block (m, c) in
               let isA' := match a_block with [] => isA | _ :: _ => true end in
               let '(m2, c2) := fold_left (fun st op => assign_id st (outputs op)) s_block st1 in
               (m2, c2, isA'))
            blocks ([], count, false).

Section Synth.
Variables pids vids : JSMap ident.

Definition synth_call (output : name) (ins : list name) : expr :=
  ECall (id_of vids output) (map (ids_get pids vids) ins).

Definition synth_pair (op : OpSpec) : ident * list ident :=
  (id_of vids (outputs op), map (ids_get pids vids) (inputs op)).

Definition sync_block (blk : list OpSpec) : list stmt :=
  map (fun op => SConst (id_of vids (outputs op)) (synth_call (outputs op) (inputs op))) blk.

Definition async_block (blk : list OpSpec) : list stmt :=
  match blk with
  | [op] => [SConst (id_of vids (outputs op)) (EAwait (synth_call (outputs op) (inputs op)))]
  | _ => [SConstArr (map (fun o => id_of vids (outputs o)) blk)
                    (EAwait (EAll (map synth_pair blk)))]
  end.

(** [mixed_block], with its counter [promises]: the [a${promises++}]
    declaration is followed by [await a${promises}] (single) or
    [await ${promises}] (several), both read after the increment. *)
Definition mixed_block (promises : nat) (a_block s_block : list OpSpec)
    : list stmt * nat :=
  match a_block with
  | [op] =>
      ([SConst (IdA promises) (synth_call (outputs op) (inputs op))]
         ++ sync_block s_block
         ++ [SConst (id_of vids (outputs op)) (EAwait (EVar (IdA (S promises))))],
       S promises)
  | _ =>
      ([SConst (IdA promises) (EAll (map synth_pair a_block))]
         ++ sync_block s_block
         ++ [SConstArr (map (fun o => id_of vids (outputs o)) a_block)
                       (EAwait (ENum (S promises)))],
       S promises)
  end.

Fixpoint gen_async (promises : nat) (blocks : list block) : list stmt :=
  match blocks with
  | [] => []
  | (a_block, s_block) :: bs =>
      match a_block with
      | _ :: _ =>
          match s_block with
          | _ :: _ =>
              let '(st, p') := mixed_block promises a_block s_block in
              st ++ gen_async p' bs
          | [] => async_block a_block ++ gen_async promises bs
          end
      | [] => sync_block s_block ++ gen_async promises bs
      end
  end.

Definition gen_calcs (isAsync : bool) (blocks : list block) : list stmt :=
  if isAsync then gen_async 0 blocks
  else flat_map (fun '(_, s_block) => sync_block s_block) blocks.

End Synth.

(** ** Running a calculator body *)

Inductive exn :=
| ErrorMsg (msg : string)      (* new Error(msg) *)
| TypeError                    (* a call of a non-function, a non-iterable destructured, ... *)
| ReferenceError (x : ident)   (* an identifier read before its declaration *)
| MissingSignal (n : name).    (* the object { missing: n } thrown by calcValue *)

Inductive outcome (A : Type) :=
| Ok (a : A)
| Throw (e : exn)
| Diverges.
Arguments Ok {A} a.
Arguments Throw {A} e.
Arguments Diverges {A}.

Definition fnT := list val -> val.

(** The [formulas] object of a loaded calculator. *)
Definition ftable := list (ident * fnT).

Fixpoint lookup_id {A} (env : list (ident * A)) (x : ident) : option A :=
  match env with
  | [] => None
  | (y, v) :: env' => if ident_eqb x y then Some v else lookup_id env' x
  end.

(** The calls made while running a body, in order: the identifier of each
    [formulas.x(...)] invoked. *)
Definition trace := list ident.

(** Reading an identifier: a declared constant, or the global [undefined]. *)
Definition read_id (env : list (ident * val)) (x : ident) : option val :=
  match lookup_id env x with
  | Some v => Some v
  | None => match x with IdUndefined => Some VUndef | _ => None end
  end.

Fixpoint read_ids (env : list (ident * val)) (xs : list ident) : outcome (list val) :=
  match xs with
  | [] => Ok []
  | x :: xs' =>
      match read_id env x with
      | None => Throw (ReferenceError x)
      | Some v => match read_ids env xs' with
                  | Ok vs => Ok (v :: vs)
                  | Throw e => Throw e
                  | Diverges => Diverges
                  end
      end
  end.

Definition await_val (v : val) : val :=
  match v with VPromise w => w | _ => v end.

(** [formulas.f(args)]: the arguments are read, then [f] is called. *)
Definition eval_call (fs : ftable) (env : list (ident * val)) (f : ident) (args : list ident)
    (tr : trace) : outcome val * trace :=
  match read_ids env args with
  | Ok vs =>
      match lookup_id fs f with
      | Some g => (Ok (g vs), tr ++ [f])
      | None => (Throw TypeError, tr)
      end
  | Throw e => (Throw e, tr)
  | Diverges => (Diverges, tr)
  end.

Fixpoint eval_calls (fs : ftable) (env : list (ident * val))
    (calls : list (ident * list ident)) (tr : trace) : outcome (list val) * trace :=
  match calls with
  | [] => (Ok [], tr)
  | (f, args) :: cs =>
      match eval_call fs env f args tr with
      | (Ok v, tr1) =>
          match eval_calls fs env cs tr1 with
          | (Ok vs, tr2) => (Ok (v :: vs), tr2)
          | (r, tr2) => (r, tr2)
          end
      | (Throw e, tr1) => (Throw e, tr1)
      | (Diverges, tr1) => (Diverges, tr1)
      end
  end.

Fixpoint eval_expr (fs : ftable) (env : list (ident * val)) (e : expr) (tr : trace)
    : outcome val * trace :=
  match e with
  | ENum n => (Ok (VNum (Z.of_nat n)), tr)
  | EVar x => match read_id env x with
              | Some v => (Ok v, tr)
              | None => (Throw (ReferenceError x), tr)
              end
  | ECall f args => eval_call fs env f args tr
  | EAll calls =>
      match eval_calls fs env calls tr with
      | (Ok vs, tr1) => (Ok (VPromise (VList (map await_val vs))), tr1)
      | (Throw e, tr1) => (Throw e, tr1)
      | (Diverges, tr1) => (Diverges, tr1)
      end
  | EAwait e1 =>
      match eval_expr fs env e1 tr with
      | (Ok v, tr1) => (Ok (await_val v), tr1)
      | r => r
      end
  end.

(** [const [x1, ..., xn] = v]: [v] must be an array; missing slots are
    [undefined]. *)
Fixpoint bind_arr (xs : list ident) (vs : list val) : list (ident * val) :=
  match xs with
  | [] => []
  | x :: xs' => match vs with
                | [] => (x, VUndef) :: bind_arr xs' []
                | v :: vs' => (x, v) :: bind_arr xs' vs'
                end
  end.

Fixpoint exec_stmts (fs : ftable) (env : list (ident * val)) (ss : list stmt) (tr : trace)
    : outcome (list (ident * val)) * trace :=
  match ss with
  | [] => (Ok env, tr)
  | SConst x e :: ss' =>
      match eval_expr fs env e tr with
      | (Ok v, tr1) => exec_stmts fs ((x, v) :: env) ss' tr1
      | (Throw e, tr1) => (Throw e, tr1)
      | (Diverges, tr1) => (Diverges, tr1)
      end
  | SConstArr xs e :: ss' =>
      match eval_expr fs env e tr with
      | (Ok (VList vs), tr1) => exec_stmts fs (rev (bind_arr xs vs) ++ env) ss' tr1
      | (Ok _, tr1) => (Throw TypeError, tr1)
      | (Throw e, tr1) => (Throw e, tr1)
      | (Diverges, tr1) => (Diverges, tr1)
      end
  end.

Definition arg_of (args : JSMap val) (k : name) : val :=
  match map_get args k with Some v => v | None => VUndef end.

Fixpoint build_ret (env : list (ident * val)) (retmap : JSMap ident) : outcome (JSMap val) :=
  match retmap with
  | [] => Ok []
  | (k, x) :: r =>
      match read_id env x with
      | None => Throw (ReferenceError x)
      | Some v => match build_ret env r with
                  | Ok o => Ok ((k, v) :: o)
                  | e => e
                  end
      end
  end.

(** [f(formulas, args)] for the function built from the body.  An
    [AsyncFunction] delivers the same outcome through its promise. *)
Definition run_body (fs : ftable) (b : fbody) (args : JSMap val) : outcome (JSMap val) * trace :=
  let env0 := rev (map (fun '(k, x) => (x, arg_of args k)) (b_args b)) in
  match exec_stmts fs env0 (b_calcs b) [] with
  | (Ok env, tr) => (build_ret env (b_ret b), tr)
  | (Throw e, tr) => (Throw e, tr)
  | (Diverges, tr) => (Diverges, tr)
  end.

(** ** Compiler state *)

(** A calculator returned by [loadSource]: the closure
    [(function (f, formulas, args) { ... }).bind(null, calculator, formulas)].
    [ex_ref] is the identity of the function object; [ex_params] is the
    record's [params] array, which the closure reads at call time (after
    [loadSource] has sorted it in place). *)
Record exec := {
  ex_ref : nat;
  ex_params : list name;
  ex_formulas : ftable;
  ex_isAsync : bool;
  ex_body : fbody
}.

Record reqinfo := { ri_intermediates : list name; ri_params : list name }.

(** The private fields of a [Compiler]; [next_ref] allocates function
    objects. *)
Record cstate := {
  deps : JSMap OpSpec;
  fn_cache : JSMap (JSMap exec);
  req_cache : JSMap reqinfo;
  next_ref : nat
}.

Definition new_compiler (optable : list OpSpec) : cstate :=
  {| deps := make_deps optable; fn_cache := []; req_cache := []; next_ref := 0 |}.

Definition set_req_cache (s : cstate) (rc : JSMap reqinfo) : cstate :=
  {| deps := deps s; fn_cache := fn_cache s; req_cache := rc; next_ref := next_ref s |}.

(** [`${reqs.join('\0')}\0\0${pre.join('\0')}`] *)
Definition req_key (reqs pre : list name) : string :=
  join NUL reqs +++ NUL +++ NUL +++ join NUL pre.

(** ** [reverseDependencies] and the wrapper around a calculator *)

Definition reverseDependencies (ops : list OpSpec) (params : list name) : list name :=
  map outputs (filter (fun op => existsb (fun i => mem i params) (inputs op)) ops).

Definition hasOwn (args : JSMap val) (p : name) : bool :=
  match map_get args p with Some _ => true | None => false end.

Definition missing_msg (uncalculable missing : list name) : string :=
  "Missing arguments: Calculating [" +++ join ", " uncalculable
    +++ "] requires [" +++ join ", " missing +++ "] as input".

(** Calling a calculator [f] with [args], against the registry [deps]: the
    outcome and the trace of formula calls. *)
Definition invoke (ds : JSMap OpSpec) (f : exec) (args : JSMap val)
    : outcome (JSMap val) * trace :=
  let missing := filter (fun p => negb (hasOwn args p)) (ex_params f) in
  match missing with
  | _ :: _ =>
      let uncalculable := reverseDependencies (map_values ds) missing in
      (Throw (ErrorMsg (missing_msg uncalculable missing)), [])
  | [] => run_body (ex_formulas f) (ex_body f) args
  end.

(** ** [Compiler.loadSource] *)

(** [for (const [k, v] of Object.entries(required_formulas))
       formulas[v] = deps.get(k)!.fn;] -- reading [.fn] of [undefined]
    throws a [TypeError].  A later binding of [v] shadows an earlier one. *)
Fixpoint link (ds : JSMap OpSpec) (required : JSMap ident) (acc : ftable) : outcome ftable :=
  match required with
  | [] => Ok acc
  | (k, v) :: r =>
      match map_get ds k with
      | Some op => link ds r ((v, fn op) :: acc)
      | None => Throw TypeError
      end
  end.

(** Returns the new state, the calculator, and the record (whose [params]
    and [returns] arrays [loadSource] sorts in place).  The parse of the
    body text by [new (isAsync ? AsyncFunction : Function)] (line 92) is
    taken to succeed and to give [sf_body]: it does so on the records
    [compile] builds from plain names (see [synthesize]); the
    [SyntaxError] it throws on other text is not part of this embedding. *)
Definition loadSource (s : cstate) (source : SerializedFn)
    : outcome (cstate * exec * SerializedFn) :=
  match link (deps s) (sf_formulas source) [] with
  | Throw e => Throw e
  | Diverges => Diverges
  | Ok formulas =>
      let params := sort (sf_params source) in
      let returns := sort (sf_returns source) in
      let f := {| ex_ref := next_ref s; ex_params := params; ex_formulas := formulas;
                  ex_isAsync := sf_isAsync source; ex_body := sf_body source |} in
      let rkey := join NUL returns in
      let pkey := join NUL params in
      let pcache := match map_get (fn_cache s) rkey with Some p => p | None => [] end in
      let s' := {| deps := deps s;
                   fn_cache := map_set (fn_cache s) rkey (map_set pcache pkey f);
                   req_cache := req_cache s;
                   next_ref := S (next_ref s) |} in
      Ok (s', f, {| sf_formulas := sf_formulas source; sf_params := params;
                    sf_returns := returns; sf_isAsync := sf_isAsync source;
                    sf_body := sf_body source |})
  end.

(** ** [Compiler.compile] *)

(** The record [compile] builds.  The body text prints each name as a
    single-quoted literal, in the destructuring [`'${key}':${ value }`]
    (line 152) and in the return map [`'${ v }':${ ids[v] }`] (line 207),
    without escaping it.  The embedding keys [b_args] and [b_ret] by the
    names themselves: that is the string the literal denotes, and the text
    is a body [new Function] accepts, when every printed name is a
    [plain_name] (no quote, backslash or line break, and not [__proto__],
    which an object literal turns into a prototype).  For other names the
    text reads or returns a different key, or is not a function body at
    all; the theorems that run or build a calculator from the names of a
    registry and a request therefore assume plain names. *)
Definition synthesize (returns : list name) (l : linearized) : SerializedFn :=
  let '(pids, count) := assign_pids (l_params l) in
  let '(vids, _, isAsync) := assign_vids count (l_blocks l) in
  {| sf_formulas := vids;
     sf_params := l_params l;
     sf_returns := returns;
     sf_isAsync := isAsync;
     sf_body := {| b_args := pids;
                   b_calcs := gen_calcs pids vids isAsync (l_blocks l);
                   b_ret := map (fun v => (v, ids_get pids vids v)) returns |} |}.

Definition compile (s : cstate) (reqs precomputed : list name)
    : outcome (cstate * exec * SerializedFn) :=
  let pre := sort precomputed in
  let returns := sort reqs in
  match linearize (deps s) returns pre with
  | None => Diverges
  | Some l =>
      let key := req_key returns pre in
      let s1 := set_req_cache s (map_set (req_cache s) key
                  {| ri_intermediates := l_intermediates l; ri_params := l_params l |}) in
      loadSource s1 (synthesize returns l)
  end.

(** A name the body text can print as ['${key}']: the literal then
    denotes the name itself and keeps the text a function body. *)
Definition plain_char (c : ascii) : bool :=
  negb (Ascii.eqb c (ascii_of_nat 39)      (* quote *)
        || Ascii.eqb c (ascii_of_nat 92)   (* backslash *)
        || Ascii.eqb c (ascii_of_nat 10)   (* line feed *)
        || Ascii.eqb c (ascii_of_nat 13)). (* carriage return *)

Definition plain_name (k : name) : bool :=
  negb (String.eqb k "__proto__") && forallb plain_char (list_ascii_of_string k).

(** Every input name of every registered operation is plain. *)
Definition plain_deps (ds : JSMap OpSpec) : bool :=
  forallb (fun kv => forallb plain_name (inputs (snd kv))) ds.

(** ** [Compiler.getParams] *)

Definition getParams (s : cstate) (reqs precomputed : list name) : outcome (cstate * reqinfo) :=
  let reqs := sort reqs in
  let pre := sort precomputed in
  let key := req_key reqs pre in
  match map_get (req_cache s) key with
  | Some ret => Ok (s, ret)
  | None =>
      match traverse (deps s) reqs pre with
      | None => Diverges
      | Some (operations, params) =>
          let ret := {| ri_intermediates := filter (fun v => negb (mem v reqs)) operations;
                        ri_params := params |} in
          Ok (set_req_cache s (map_set (req_cache s) key ret), ret)
      end
  end.

(** ** [Compiler.getCalculator] and [Compiler.calculate] *)

Definition compiled_fn (r : outcome (cstate * exec * SerializedFn)) : outcome (cstate * exec) :=
  match r with
  | Ok (s', f, _) => Ok (s', f)
  | Throw e => Throw e
  | Diverges => Diverges
  end.

Definition getCalculator (s : cstate) (reqs precomputed : list name) : outcome (cstate * exec) :=
  let returns := sort reqs in
  let pre := precomputed in
  let rkey := join NUL returns in
  match map_get (fn_cache s) rkey with
  | None => compiled_fn (compile s returns pre)
  | Some pcache =>
      match getParams s returns pre with
      | Ok (s1, ri) =>
          let pkey := join NUL (ri_params ri) in
          match map_get pcache pkey with
          | Some f => Ok (s1, f)
          | None => compiled_fn (compile s1 returns pre)
          end
      | Throw e => Throw e
      | Diverges => Diverges
      end
  end.

(** [this.getCalculator(reqs, Object.keys(args))(args)]: the new state, the
    outcome of the call and its trace of formula calls. *)
Definition calculate (s : cstate) (reqs : list name) (args : JSMap val)
    : outcome (cstate * JSMap val) * trace :=
  match getCalculator s reqs (map fst args) with
  | Ok (s', f) =>
      match invoke (deps s') f args with
      | (Ok o, tr) => (Ok (s', o), tr)
      | (Throw e, tr) => (Throw e, tr)
      | (Diverges, tr) => (Diverges, tr)
      end
  | Throw e => (Throw e, [])
  | Diverges => (Diverges, [])
  end.

(** ** [calcValue] and [Compiler.interpret]

    Objects live in a store; a location is an index.  [{ ...args }]
    allocates a fresh object with the same own properties;
    [hasOwnProperty] and [vals[req] = val] read and write the object at a
    location.  The recursion runs on fuel; running out is [Diverges]. *)
Definition obj := JSMap val.
Definition store := list obj.

Definition obj_at (st : store) (l : nat) : obj :=
  match nth_error st l with Some o => o | None => [] end.

Fixpoint store_update (st : store) (l : nat) (o : obj) : store :=
  match st, l with
  | [], _ => []
  | _ :: st', 0 => o :: st'
  | o' :: st', S l' => o' :: store_update st' l' o
  end.

Definition obj_set (st : store) (l : nat) (k : name) (v : val) : store :=
  store_update st l (map_set (obj_at st l) k v).

Definition alloc (st : store) (o : obj) : nat * store := (List.length st, st ++ [o]).

(** [for (const n of op.inputs) { args.push(await calcValue(deps, n, vals)); }]
    with [calc] standing for [calcValue(deps, _, vals)]. *)
Fixpoint calc_args (calc : name -> store -> outcome val * store) (ns : list name) (st : store)
    : outcome (list val) * store :=
  match ns with
  | [] => (Ok [], st)
  | n :: ns' =>
      match calc n st with
      | (Ok v, st1) =>
          match calc_args calc ns' st1 with
          | (Ok vs, st2) => (Ok (v :: vs), st2)
          | r => r
          end
      | (Throw e, st1) => (Throw e, st1)
      | (Diverges, st1) => (Diverges, st1)
      end
  end.

Fixpoint calcValue (fuel : nat) (ds : JSMap OpSpec) (req : name) (vals : nat) (st : store)
    : outcome val * store :=
  match fuel with
  | 0 => (Diverges, st)
  | S fuel' =>
      match map_get (obj_at st vals) req with
      | Some v => (Ok v, st)
      | None =>
          match map_get ds req with
          | None => (Throw (MissingSignal req), st)
          | Some op =>
              match calc_args (fun n st0 => calcValue fuel' ds n vals st0) (inputs op) st with
              | (Ok args, st1) =>
                  let v := await_val (fn op args) in
                  (Ok v, obj_set st1 vals req v)
              | (Throw e, st1) => (Throw e, st1)
              | (Diverges, st1) => (Diverges, st1)
              end
          end
      end
  end.

Definition cannot_msg (top missing : name) : string :=
  "Cannot calculate [" +++ top +++ "]; missing required input [" +++ missing +++ "].".

(** The [for (const val of reqs)] loop with its [try]/[catch]: a thrown
    [{ missing }] with a truthy (non-empty) name becomes the diagnostic,
    anything else is rethrown. *)
Fixpoint interp_loop (fuel : nat) (ds : JSMap OpSpec) (vals : nat) (reqs : list name)
    (ret : obj) (st : store) : outcome obj * store :=
  match reqs with
  | [] => (Ok ret, st)
  | v :: reqs' =>
      match calcValue fuel ds v vals st with
      | (Ok x, st1) => interp_loop fuel ds vals reqs' (map_set ret v x) st1
      | (Throw (MissingSignal m), st1) =>
          if String.eqb m EmptyString then (Throw (MissingSignal m), st1)
          else (Throw (ErrorMsg (cannot_msg v m)), st1)
      | (Throw e, st1) => (Throw e, st1)
      | (Diverges, st1) => (Diverges, st1)
      end
  end.

Definition interpret (fuel : nat) (ds : JSMap OpSpec) (reqs : list name) (args : nat) (st : store)
    : outcome obj * store :=
  let '(vals, st1) := alloc st (obj_at st args) in
  interp_loop fuel ds vals reqs [] st1.

(** A requested name reaches [m] through the declared inputs. *)
Inductive reaches (ds : JSMap OpSpec) : name -> name -> Prop :=
| reaches_refl n : reaches ds n n
| reaches_step n op i m :
    map_get ds n = Some op -> In i (inputs op) -> reaches ds i m -> reaches ds n m.

(** ** Concrete registries *)

Open Scope string_scope.

Definition num1 (f : Z -> Z) : fnT :=
  fun vs => match vs with VNum z :: _ => VNum (f z) | _ => VNaN end.

(** [double(x) = 2x], [addOne(double) = double + 1] *)
Definition op_double : OpSpec :=
  {| inputs := ["x"]; outputs := "double"; fn := num1 (fun z => 2 * z)%Z; async := false |}.
Definition op_addOne : OpSpec :=
  {| inputs := ["double"]; outputs := "addOne"; fn := num1 (fun z => z + 1)%Z; async := false |}.
Definition ex_compiler : cstate := new_compiler [op_double; op_addOne].

(** Two operations each needing the other. *)
Definition op_cyc_a : OpSpec :=
  {| inputs := ["b"]; outputs := "a"; fn := fun _ => VUndef; async := false |}.
Definition op_cyc_b : OpSpec :=
  {| inputs := ["a"]; outputs := "b"; fn := fun _ => VUndef; async := false |}.
Definition cyc_optable : list OpSpec := [op_cyc_a; op_cyc_b].

(** An asynchronous [a(x)] and a synchronous [s(y)], ready in the same
    wave, and a synchronous [t(a)] in the next wave. *)
Definition op_async_a : OpSpec :=
  {| inputs := ["x"]; outputs := "a";
     fn := fun vs => VPromise (num1 (fun z => z + 10)%Z vs); async := true |}.
Definition op_sync_s : OpSpec :=
  {| inputs := ["y"]; outputs := "s"; fn := num1 (fun z => z + 20)%Z; async := false |}.
Definition op_sync_t : OpSpec :=
  {| inputs := ["a"]; outputs := "t"; fn := num1 (fun z => z + 30)%Z; async := false |}.
Definition mixed_compiler : cstate := new_compiler [op_async_a; op_sync_s; op_sync_t].

(** [T(A, m)] with [A(m2)]; neither [m] nor [m2] is registered. *)
Definition op_T : OpSpec :=
  {| inputs := ["A"; "m"]; outputs := "T"; fn := fun _ => VUndef; async := false |}.
Definition op_A : OpSpec :=
  {| inputs := ["m2"]; outputs := "A"; fn := fun _ => VUndef; async := false |}.
Definition deep_deps : JSMap OpSpec := make_deps [op_T; op_A].

(** A record naming an operation [triple] that [ex_compiler] lacks. *)
Definition orphan_record : SerializedFn :=
  {| sf_formulas := [("triple", IdV 1)]; sf_params := ["x"]; sf_returns := ["triple"];
     sf_isAsync := false;
     sf_body := {| b_args := [("x", IdV 0)];
                   b_calcs := [SConst (IdV 1) (ECall (IdV 1) [IdV 0])];
                   b_ret := [("triple", IdV 1)] |} |}.

(** A record for [double] alone, as [compile(['double'])] on [ex_compiler]
    produces it. *)
Definition double_record : SerializedFn :=
  {| sf_formulas := [("double", IdV 1)]; sf_params := ["x"]; sf_returns := ["double"];
     sf_isAsync := false;
     sf_body := {| b_args := [("x", IdV 0)];
                   b_calcs := [SConst (IdV 1) (ECall (IdV 1) [IdV 0])];
                   b_ret := [("double", IdV 1)] |} |}.

Close Scope string_scope.

(** ** Definitions used by the proofs *)

(** [l] is in ascending order. *)
Fixpoint sorted (l : list string) : bool :=
  match l with
  | x :: ((y :: _) as l') => String.leb x y && sorted l'
  | _ => true
  end.

(** The inputs of every operation not yet visited: each expansion moves an
    operation's inputs onto the stack and its own term to zero. *)
Definition pending (ds : JSMap OpSpec) (visited : list name) : nat :=
  list_sum (map (fun '(k, op) => if mem k visited then 0 else List.length (inputs op)) ds).

(** [s] has no NUL character. *)
Fixpoint nul_free (s : string) : bool :=
  match s with
  | EmptyString => true
  | String c s' => negb (Ascii.eqb c (ascii_of_nat 0)) && nul_free s'
  end.

(** A name that keeps the cache keys apart: not empty, and without the NUL
    that [join('\0')] puts between names. *)
Definition key_safe (k : name) : bool := negb (String.eqb k "") && nul_free k.

(** The compilers obtained from a new one by calls whose requested and
    precomputed names are all [key_safe]: [getParams], [compile] (also when
    it stops after its [req_cache.set], in [loadSource]), [getCalculator],
    [calculate] (whose precomputed names are [Object.keys(args)]), and
    [loadSource] on any record. *)
Inductive safe_reachable : cstate -> Prop :=
| sr_new optable : safe_reachable (new_compiler optable)
| sr_getParams s r p s' ri :
    safe_reachable s -> forallb key_safe r = true -> forallb key_safe p = true ->
    getParams s r p = Ok (s', ri) -> safe_reachable s'
| sr_compile_cache s r p l :
    safe_reachable s -> forallb key_safe r = true -> forallb key_safe p = true ->
    linearize (deps s) (sort r) (sort p) = Some l ->
    safe_reachable (set_req_cache s (map_set (req_cache s) (req_key (sort r) (sort p))
      {| ri_intermediates := l_intermediates l; ri_params := l_params l |}))
| sr_compile s r p s' f sf :
    safe_reachable s -> forallb key_safe r = true -> forallb key_safe p = true ->
    compile s r p = Ok (s', f, sf) -> safe_reachable s'
| sr_getCalculator s r p s' f :
    safe_reachable s -> forallb key_safe r = true -> forallb key_safe p = true ->
    getCalculator s r p = Ok (s', f) -> safe_reachable s'
| sr_calculate s r args s' o tr :
    safe_reachable s -> forallb key_safe r = true -> forallb key_safe (map fst args) = true ->
    calculate s r args = (Ok (s', o), tr) -> safe_reachable s'
| sr_loadSource s src s' f sf :
    safe_reachable s -> loadSource s src = Ok (s', f, sf) -> safe_reachable s'.

(** Every entry of the [getParams] cache is stored under the key of sorted
    lists of [key_safe] names and holds the parameters the traversal
    computes for them. *)
Definition cache_keyed (s : cstate) : Prop :=
  forall key ri, map_get (req_cache s) key = Some ri ->
    exists r p ops, forallb key_safe r = true /\ forallb key_safe p = true /\
      key = req_key r p /\ traverse (deps s) r p = Some (ops, ri_params ri).

(** [s.split('\0')]. *)
Fixpoint fields (s : string) : list string :=
  match s with
  | EmptyString => [EmptyString]
  | String c s' =>
      let fs := fields s' in
      if Ascii.eqb c (ascii_of_nat 0) then EmptyString :: fs
      else match fs with
           | f :: r => String c f :: r
           | [] => [String c EmptyString]
           end
  end.

(** [join('\0')] gives [''] for the empty list. *)
Definition join_fields (l : list name) : list string :=
  match l with [] => [EmptyString] | _ => l end.

(** The outputs of the operations a schedule runs, wave by wave. *)
Definition sched_outputs (blocks : list block) : list name :=
  flat_map (fun '(a, s) => map outputs a ++ map outputs s) blocks.

(** Writes into the store touch only the object at [vals]. *)
Definition frame (vals : nat) (st st' : store) : Prop :=
  List.length st' = List.length st /\ forall l, l <> vals -> nth_error st' l = nth_error st l.

(** The spec the constructor leaves registered under [k]: the last one of
    [optable] whose [outputs] is [k]. *)
Definition last_spec (optable : list OpSpec) (k : name) : option OpSpec :=
  find (fun op => String.eqb (outputs op) k) (rev optable).

(** [v] is met by the traversal started at [r]: a path that only goes
    through the inputs of registered operations that are not precomputed. *)
Inductive plan_reaches (ds : JSMap OpSpec) (pre : list name) (r : name) : name -> Prop :=
| pr_refl : plan_reaches ds pre r r
| pr_step v op i :
    plan_reaches ds pre r v -> map_get ds v = Some op -> mem v pre = false ->
    In i (inputs op) -> plan_reaches ds pre r i.

(** The loop invariant of [traverse]: [visited] is what has been sorted
    into [operations] and [params]; the inputs of an operation are visited
    or still on the stack; a parameter is unregistered or precomputed; every
    requested name is visited or on the stack; and every name visited or
    on the stack is met from a requested name. *)
Definition tinv (ds : JSMap OpSpec) (pre reqs visited operations params stack : list name)
    : Prop :=
  (forall v, In v visited <-> In v operations \/ In v params) /\
  (forall v, In v operations -> exists op, map_get ds v = Some op /\ mem v pre = false /\
     forall i, In i (inputs op) -> In i visited \/ In i stack) /\
  (forall p, In p params -> map_get ds p = None \/ mem p pre = true) /\
  (forall r, In r reqs -> In r visited \/ In r stack) /\
  (forall v, In v visited \/ In v stack -> exists r, In r reqs /\ plan_reaches ds pre r v).


(** Reading the values of [ns] one by one with [g]; [None] if one is
    missing. *)
Fixpoint opt_all (g : name -> option val) (ns : list name) : option (list val) :=
  match ns with
  | [] => Some []
  | n :: ns' =>
      match g n, opt_all g ns' with
      | Some v, Some vs => Some (v :: vs)
      | _, _ => None
      end
  end.

(** The reference value of [n]: a precomputed or unregistered name is read
    from [args] ([undefined] if absent), any other name is its operation's
    formula applied to the values of its inputs; the fuel bounds the depth
    of the recursion. *)
Fixpoint denote (fuel : nat) (ds : JSMap OpSpec) (pre : list name) (args : JSMap val)
    (n : name) : option val :=
  match fuel with
  | 0 => None
  | S fuel' =>
      match map_get ds n with
      | None => Some (arg_of args n)
      | Some op =>
          if mem n pre then Some (arg_of args n)
          else match opt_all (denote fuel' ds pre args) (inputs op) with
               | Some vs => Some (fn op vs)
               | None => None
               end
      end
  end.

(** [ops], run in this order, only use inputs in [seen] or produced by an
    operation before them. *)
Fixpoint ordered (seen : list name) (ops : list OpSpec) : Prop :=
  match ops with
  | [] => True
  | op :: ops' => (forall i, In i (inputs op) -> In i seen) /\ ordered (outputs op :: seen) ops'
  end.

(** A synchronous node whose operation's inputs are computed or still
    listed in the node. *)
Definition node_ok (ds : JSMap OpSpec) (c : list name) (nd : node) : Prop :=
  nd_async nd = false /\
  exists op, map_get ds (nd_outputs nd) = Some op /\
    forall i, In i (inputs op) -> In i c \/ In i (nd_inputs nd).

(** The identifiers of [m] are [v<j>] with [lo <= j < hi], and no two
    names share one. *)
Definition ids_ok (m : JSMap ident) (lo hi : nat) : Prop :=
  (forall k x, map_get m k = Some x -> exists j, x = IdV j /\ lo <= j < hi) /\
  (forall k1 k2 x, map_get m k1 = Some x -> map_get m k2 = Some x -> k1 = k2).

(** The synchronous operations of a schedule, in the order they run. *)
Definition flat_s (blocks : list block) : list OpSpec := flat_map snd blocks.

(** [i] can be read in [env] through its identifier in [{ ...pids, ...vids }],
    and holds its reference value. *)
Definition avail (ds : JSMap OpSpec) (pre : list name) (args : JSMap val)
    (pids vids : JSMap ident) (env : list (ident * val)) (i : name) : Prop :=
  exists v, read_id env (ids_get pids vids i) = Some v /\
    exists fuel, denote fuel ds pre args i = Some v.

(** * Proofs *)

(** ** Containers *)

Lemma mem_In x s : mem x s = true <-> In x s.
Proof.
  unfold mem. rewrite existsb_exists. split.
  - intros [y [Hy Heq]]. apply String.eqb_eq in Heq. subst. exact Hy.
  - intros H. exists x. split; [exact H | apply String.eqb_refl].
Qed.

Lemma mem_false x s : mem x s = false <-> ~ In x s.
Proof.
  rewrite <- mem_In. destruct (mem x s); split; congruence.
Qed.

Lemma mem_cons x y s : mem x (y :: s) = String.eqb x y || mem x s.
Proof. reflexivity. Qed.

Lemma mem_app x s1 s2 : mem x (s1 ++ s2) = mem x s1 || mem x s2.
Proof. unfold mem. apply existsb_app. Qed.

Lemma map_get_set_same {A} (m : JSMap A) k v : map_get (map_set m k v) k = Some v.
Proof.
  induction m as [|[k' v'] m IH]; simpl.
  - rewrite String.eqb_refl. reflexivity.
  - destruct (String.eqb k k') eqn:E; simpl.
    + rewrite E. reflexivity.
    + rewrite E. exact IH.
Qed.

(** ** Sorting *)

Lemma insert_perm x l : Permutation.Permutation (insert x l) (x :: l).
Proof.
  induction l as [|y l IH]; simpl; [reflexivity|].
  destruct (String.leb x y); [reflexivity|].
  eapply Permutation.perm_trans; [apply Permutation.perm_skip, IH|].
  apply Permutation.perm_swap.
Qed.

Lemma sort_perm l : Permutation.Permutation (sort l) l.
Proof.
  induction l as [|x l IH]; simpl; [reflexivity|].
  eapply Permutation.perm_trans; [apply insert_perm|].
  apply Permutation.perm_skip, IH.
Qed.

Lemma In_sort x l : In x (sort l) <-> In x l.
Proof.
  split; apply Permutation.Permutation_in;
    [apply sort_perm | apply Permutation.Permutation_sym, sort_perm].
Qed.

Lemma sorted_cons2 x y l : sorted (x :: y :: l) = String.leb x y && sorted (y :: l).
Proof. reflexivity. Qed.

Lemma insert_sorted_cons x y l :
  sorted (y :: l) = true -> String.leb y x = true -> sorted (y :: insert x l) = true.
Proof.
  revert y. induction l as [|z l IH]; intros y Hs Hyx.
  - simpl. rewrite Hyx. reflexivity.
  - change (insert x (z :: l)) with (if String.leb x z then x :: z :: l else z :: insert x l).
    rewrite sorted_cons2 in Hs. apply andb_prop in Hs as [Hyz Hs].
    destruct (String.leb x z) eqn:Hxz.
    + rewrite !sorted_cons2, Hyx, Hxz, Hs. reflexivity.
    + rewrite sorted_cons2, Hyz. apply IH; [exact Hs|].
      destruct (String.leb_total x z) as [H|H]; [congruence|exact H].
Qed.

Lemma insert_sorted x l : sorted l = true -> sorted (insert x l) = true.
Proof.
  destruct l as [|y l]; intros Hs; simpl; [reflexivity|].
  destruct (String.leb x y) eqn:Hxy.
  - rewrite sorted_cons2, Hxy. exact Hs.
  - apply insert_sorted_cons; [exact Hs|].
    destruct (String.leb_total x y) as [H|H]; [congruence|exact H].
Qed.

Lemma sort_sorted l : sorted (sort l) = true.
Proof.
  induction l as [|x l IH]; simpl; [reflexivity|]. apply insert_sorted, IH.
Qed.

Lemma sort_of_sorted l : sorted l = true -> sort l = l.
Proof.
  induction l as [|x l IH]; intros Hs; simpl; [reflexivity|].
  rewrite IH.
  - destruct l as [|y l]; simpl; [reflexivity|].
    rewrite sorted_cons2 in Hs. apply andb_prop in Hs as [Hxy _]. rewrite Hxy. reflexivity.
  - destruct l as [|y l]; [reflexivity|]. rewrite sorted_cons2 in Hs.
    apply andb_prop in Hs as [_ H]. exact H.
Qed.

Lemma sort_idem l : sort (sort l) = sort l.
Proof. apply sort_of_sorted, sort_sorted. Qed.

(** ** Traversal: termination *)

Lemma pending_visit ds v visited : pending ds (v :: visited) <= pending ds visited.
Proof.
  unfold pending. induction ds as [|[k op] ds IH]; simpl; [lia|].
  rewrite mem_cons. destruct (String.eqb k v), (mem k visited); simpl; lia.
Qed.

Lemma pending_expand ds v op visited :
  mem v visited = false -> map_get ds v = Some op ->
  pending ds (v :: visited) + List.length (inputs op) <= pending ds visited.
Proof.
  intros Hv. unfold pending. induction ds as [|[k op'] ds IH]; simpl; [discriminate|].
  rewrite mem_cons. destruct (String.eqb v k) eqn:E.
  - intros Hop. injection Hop as <-. apply String.eqb_eq in E. subst k.
    rewrite String.eqb_refl, Hv. simpl.
    pose proof (pending_visit ds v visited) as Hp. unfold pending in Hp. lia.
  - intros Hop. specialize (IH Hop).
    assert (E' : String.eqb k v = false) by (rewrite String.eqb_sym; exact E).
    rewrite E'. simpl. lia.
Qed.

Lemma pending_nil ds :
  pending ds [] = list_sum (map (fun '(_, op) => List.length (inputs op)) ds).
Proof.
  unfold pending. f_equal.
Qed.

Lemma traverse_loop_some fuel ds precomp visited operations params stack :
  List.length stack + pending ds visited <= fuel ->
  exists r, traverse_loop fuel ds precomp visited operations params stack = Some r.
Proof.
  revert visited operations params stack.
  induction fuel as [|fuel IH]; intros visited operations params stack Hf.
  - destruct stack; simpl in *; [eauto | lia].
  - destruct stack as [|v stack]; simpl; [eauto|]. simpl in Hf.
    destruct (mem v visited) eqn:Hv; [apply IH; lia|].
    destruct (map_get ds v) as [op|] eqn:Hop.
    + pose proof (pending_expand ds v op visited Hv Hop).
      destruct (mem v precomp); apply IH;
        rewrite ?length_app, ?length_rev; lia.
    + pose proof (pending_visit ds v visited). apply IH; lia.
Qed.

(** ** Traversal: what it returns *)

Lemma traverse_loop_disjoint fuel ds precomp visited operations params stack ops' params' :
  (forall v, In v operations -> mem v precomp = false) ->
  (forall v, In v operations -> ~ In v params) ->
  (forall v, In v operations \/ In v params -> In v visited) ->
  traverse_loop fuel ds precomp visited operations params stack = Some (ops', params') ->
  (forall v, In v ops' -> mem v precomp = false) /\ (forall v, In v ops' -> ~ In v params').
Proof.
  revert visited operations params stack.
  induction fuel as [|fuel IH]; intros visited operations params stack H1 H2 H3 Hr.
  - destruct stack; simpl in Hr; [injection Hr as <- <-; auto | discriminate].
  - destruct stack as [|v stack]; simpl in Hr; [injection Hr as <- <-; auto|].
    destruct (mem v visited) eqn:Hv; [eapply IH; eauto|].
    apply mem_false in Hv.
    assert (Hvo : ~ In v operations) by (intro; apply Hv, H3; auto).
    assert (Hvp : ~ In v params) by (intro; apply Hv, H3; auto).
    assert (HP : forall stack', traverse_loop fuel ds precomp (v :: visited) operations
                    (params ++ [v]) stack' = Some (ops', params') ->
                 (forall v, In v ops' -> mem v precomp = false) /\
                 (forall v, In v ops' -> ~ In v params')).
    { intros stack' Hr'. eapply IH; [exact H1| | |exact Hr'].
      - intros w Hw Hw'. apply in_app_or in Hw' as [Hw'|[<-|[]]];
          [exact (H2 w Hw Hw') | exact (Hvo Hw)].
      - intros w [Hw|Hw]; [right; apply H3; left; exact Hw|].
        apply in_app_or in Hw as [Hw|[<-|[]]];
          [right; apply H3; right; exact Hw | left; reflexivity]. }
    destruct (map_get ds v) as [op|]; [destruct (mem v precomp) eqn:Hpre|];
      [exact (HP _ Hr) | | exact (HP _ Hr)].
    eapply IH; [| | |exact Hr].
    + intros w Hw. apply in_app_or in Hw as [Hw|[<-|[]]]; [exact (H1 w Hw) | exact Hpre].
    + intros w Hw Hw'. apply in_app_or in Hw as [Hw|[<-|[]]];
        [exact (H2 w Hw Hw') | exact (Hvp Hw')].
    + intros w [Hw|Hw].
      * apply in_app_or in Hw as [Hw|[<-|[]]];
          [right; apply H3; left; exact Hw | left; reflexivity].
      * right; apply H3; right; exact Hw.
Qed.

Lemma traverse_disjoint ds reqs pre operations params :
  traverse ds reqs pre = Some (operations, params) ->
  (forall v, In v operations -> mem v pre = false) /\ (forall v, In v operations -> ~ In v params).
Proof.
  unfold traverse. destruct (traverse_loop _ _ _ _ _ _ _) as [[ops ps]|] eqn:E; [|discriminate].
  intros H. injection H as <- <-.
  destruct (traverse_loop_disjoint (traverse_fuel ds reqs) ds pre [] [] [] (rev reqs) ops ps)
    as [H1 H2]; [intros v []|intros v []|intros v [[]|[]]|exact E|].
  split; [exact H1|]. intros v Hv Hs. rewrite !In_sort in Hs. exact (H2 v Hv Hs).
Qed.

(** ** The registry *)

Lemma map_get_set {A} (m : JSMap A) k v k' :
  map_get (map_set m k v) k' = if String.eqb k' k then Some v else map_get m k'.
Proof.
  induction m as [|[k0 v0] m IH]; simpl; [reflexivity|].
  destruct (String.eqb k k0) eqn:E; simpl.
  - apply String.eqb_eq in E. subst k0. destruct (String.eqb k' k); reflexivity.
  - rewrite IH. destruct (String.eqb k' k0) eqn:E1; [|reflexivity].
    apply String.eqb_eq in E1. subst k'.
    rewrite String.eqb_sym, E. reflexivity.
Qed.

Lemma make_deps_wf optable : deps_wf (make_deps optable).
Proof.
  unfold make_deps.
  assert (G : forall d, deps_wf d ->
            deps_wf (fold_left (fun d spec => map_set d (outputs spec) spec) optable d)).
  { induction optable as [|spec optable IH]; intros d Hd; simpl; [exact Hd|].
    apply IH. intros k op. rewrite map_get_set.
    destruct (String.eqb k (outputs spec)) eqn:E.
    - intros H. injection H as <-. apply String.eqb_eq in E. symmetry. exact E.
    - apply Hd. }
  apply G. intros k op H. discriminate.
Qed.

(** ** Scheduling: a cycle is never scheduled *)

Section Cycle.
Variable ds : JSMap OpSpec.
Variable cyc : list name.

Lemma lin_pass_cycle nodes computed :
  (forall c, In c cyc -> mem c computed = false) ->
  (forall nd, In nd nodes -> In (nd_outputs nd) cyc ->
     exists i, In i (nd_inputs nd) /\ In i cyc) ->
  forall c a s n, lin_pass ds computed nodes = (c, a, s, n) ->
  (forall x, In x cyc -> mem x c = false) /\
  (forall nd, In nd n -> In (nd_outputs nd) cyc -> exists i, In i (nd_inputs nd) /\ In i cyc) /\
  (forall nd, In nd nodes -> In (nd_outputs nd) cyc ->
     exists nd', In nd' n /\ nd_outputs nd' = nd_outputs nd).
Proof.
  revert computed. induction nodes as [|nd rest IH]; intros computed Hf Hb c a s n Hp.
  - cbn [lin_pass] in Hp. injection Hp as <- <- <- <-.
    split; [exact Hf|]. split; intros nd [].
  - cbn [lin_pass] in Hp.
    assert (Hkeep : forall j, In j (nd_inputs nd) -> In j cyc ->
              In j (filter (fun v => negb (mem v computed)) (nd_inputs nd))).
    { intros j Hj Hjc. apply filter_In. split; [exact Hj|]. rewrite (Hf j Hjc). reflexivity. }
    destruct (filter (fun v => negb (mem v computed)) (nd_inputs nd)) as [|i ins] eqn:Hins.
    + assert (Hnc : ~ In (nd_outputs nd) cyc).
      { intros Hin. destruct (Hb nd (or_introl eq_refl) Hin) as [j [Hj Hjc]].
        exact (Hkeep j Hj Hjc). }
      assert (Hf' : forall x, In x cyc -> mem x (nd_outputs nd :: computed) = false).
      { intros x Hx. rewrite mem_cons, (Hf x Hx), orb_false_r.
        destruct (String.eqb x (nd_outputs nd)) eqn:E; [|reflexivity].
        apply String.eqb_eq in E. subst x. contradiction. }
      destruct (lin_pass ds (nd_outputs nd :: computed) rest) as [[[c' a'] s'] n'] eqn:Hr.
      destruct (IH _ Hf' (fun nd0 H0 => Hb nd0 (or_intror H0)) _ _ _ _ Hr) as [H1 [H2 H3]].
      assert (Hfin : c = c' /\ n = n').
      { destruct (map_get ds (nd_outputs nd)); [destruct (nd_async nd)|];
          injection Hp; auto. }
      destruct Hfin as [-> ->].
      split; [exact H1|]. split; [exact H2|].
      intros nd0 [<-|Hin] Hc; [contradiction | apply H3; auto].
    + destruct (lin_pass ds computed rest) as [[[c' a'] s'] n'] eqn:Hr.
      destruct (IH computed Hf (fun nd0 H0 => Hb nd0 (or_intror H0)) _ _ _ _ Hr)
        as [H1 [H2 H3]].
      injection Hp as <- <- <- <-.
      split; [exact H1|]. split.
      * intros nd0 [<-|Hin] Hc; [|apply H2; auto].
        cbn [nd_outputs nd_inputs] in Hc |- *. destruct (Hb nd (or_introl eq_refl) Hc) as [j [Hj Hjc]].
        exists j. split; [|exact Hjc]. exact (Hkeep j Hj Hjc).
      * intros nd0 [<-|Hin] Hc.
        -- eexists. split; [left; reflexivity | reflexivity].
        -- destruct (H3 nd0 Hin Hc) as [nd' [Hin' Heq]].
           exists nd'. split; [right; exact Hin' | exact Heq].
Qed.

Lemma lin_loop_cycle fuel computed nodes blocks :
  (forall c, In c cyc -> mem c computed = false) ->
  (forall nd, In nd nodes -> In (nd_outputs nd) cyc ->
     exists i, In i (nd_inputs nd) /\ In i cyc) ->
  (exists nd, In nd nodes /\ In (nd_outputs nd) cyc) ->
  lin_loop fuel ds computed nodes blocks = None.
Proof.
  revert computed nodes blocks.
  induction fuel as [|fuel IH]; intros computed nodes blocks Hf Hb [nd [Hin Hc]].
  - destruct nodes; [contradiction | reflexivity].
  - destruct nodes as [|nd0 rest]; [contradiction|]. cbn [lin_loop].
    destruct (lin_pass ds computed (nd0 :: rest)) as [[[c a] s] n] eqn:Hp.
    destruct (lin_pass_cycle _ _ Hf Hb _ _ _ _ Hp) as [H1 [H2 H3]].
    destruct (H3 nd Hin Hc) as [nd' [Hin' Heq]].
    apply IH; auto. exists nd'. rewrite Heq. auto.
Qed.

(** From a traversal whose operations contain [cyc], where every member of
    [cyc] has an input in [cyc]: no number of scans empties [nodes]. *)
Lemma linearize_fuel_cycle fuel reqs pre operations params :
  deps_wf ds ->
  traverse ds reqs pre = Some (operations, params) ->
  cyc <> [] ->
  (forall c, In c cyc -> In c operations /\
     exists op, map_get ds c = Some op /\ exists i, In i (inputs op) /\ In i cyc) ->
  linearize_fuel fuel ds reqs pre = None.
Proof.
  intros Hwf Ht Hne Hc. unfold linearize_fuel. rewrite Ht.
  destruct (traverse_disjoint _ _ _ _ _ Ht) as [Hpre Hpar].
  rewrite lin_loop_cycle; [reflexivity| | |].
  - intros c Hin. destruct (Hc c Hin) as [Hop _].
    rewrite mem_app, (Hpre c Hop). apply mem_false, Hpar, Hop.
  - intros nd Hnd Hout. unfold lin_nodes in Hnd. apply in_flat_map in Hnd as [v [Hv Hnd]].
    destruct (map_get ds v) as [op|] eqn:Hop; [|destruct Hnd].
    destruct Hnd as [<-|[]]. simpl in Hout |- *.
    rewrite (Hwf v op Hop) in Hout. destruct (Hc v Hout) as [_ [op' [Hop' Hi]]].
    rewrite Hop in Hop'. injection Hop' as <-. exact Hi.
  - destruct cyc as [|c0 cs]; [contradiction|].
    destruct (Hc c0 (or_introl eq_refl)) as [Hop [op [Hget _]]].
    exists (mk_node op). split.
    + unfold lin_nodes. apply in_flat_map. exists c0. split; [exact Hop|].
      rewrite Hget. left. reflexivity.
    + simpl. rewrite (Hwf c0 op Hget). left. reflexivity.
Qed.

End Cycle.

Open Scope string_scope.
Open Scope list_scope.

(** ** C7 *)

(** C7 (corrected): [traverse] terminates on every registry and every
    request, whether or not the required operations contain a cycle; its
    [visited] set keeps any name from being expanded twice. *)
Theorem traverse_always_terminates ds reqs precomp :
  exists operations params, traverse ds reqs precomp = Some (operations, params).
Proof.
  unfold traverse.
  destruct (traverse_loop_some (traverse_fuel ds reqs) ds precomp [] [] [] (rev reqs))
    as [[ops ps] H].
  - rewrite length_rev, pending_nil. unfold traverse_fuel. lia.
  - rewrite H. eauto.
Qed.

(** C7, counterexample: [a] needs [b] and [b] needs [a]; [traverse ['a']]
    still returns. *)
Lemma traverse_cycle_counterexample :
  traverse (make_deps cyc_optable) ["a"] [] = Some (["a"; "b"], []) /\
  map_get (make_deps cyc_optable) "a" = Some op_cyc_a /\
  map_get (make_deps cyc_optable) "b" = Some op_cyc_b /\
  inputs op_cyc_a = ["b"] /\ inputs op_cyc_b = ["a"].
Proof. repeat split; reflexivity. Qed.

(** ** C1 *)

(** C1 (corrected): [linearize] does not detect cycles.  When the
    operations a request requires contain a dependency cycle (a non-empty
    set [cyc] of required operations each of which has a declared input in
    [cyc]), no number of scans of its [while] loop ends it: it neither
    returns nor raises an error, it runs forever. *)
Theorem linearize_cycle_never_returns optable reqs pre operations params cyc :
  traverse (make_deps optable) reqs pre = Some (operations, params) ->
  cyc <> [] ->
  (forall c, In c cyc -> In c operations /\
     exists op, map_get (make_deps optable) c = Some op /\
       exists i, In i (inputs op) /\ In i cyc) ->
  forall fuel, linearize_fuel fuel (make_deps optable) reqs pre = None.
Proof.
  intros Ht Hne Hc fuel.
  exact (linearize_fuel_cycle _ cyc fuel reqs pre operations params
           (make_deps_wf optable) Ht Hne Hc).
Qed.

Lemma linearize_cycle_never_returns_witness :
  traverse (make_deps cyc_optable) ["a"] [] = Some (["a"; "b"], []) /\
  linearize (make_deps cyc_optable) ["a"] [] = None.
Proof.
  split; [reflexivity|]. unfold linearize.
  apply (linearize_cycle_never_returns cyc_optable ["a"] [] ["a"; "b"] [] ["a"; "b"]).
  - reflexivity.
  - discriminate.
  - intros c [<-|[<-|[]]]; (split; [simpl; auto|]); eexists;
      (split; [reflexivity|]); eexists; split; simpl; auto.
Defined.

(** C1, counterexample: on the two-operation cycle, scheduling [['a']]
    reports nothing: the scans stop making progress ([linearize] at the
    bound after which no scan can progress, and at a thousand scans, has
    not returned), and [compile] and [calculate] for [['a']] run forever. *)
Lemma linearize_cycle_counterexample :
  linearize (make_deps cyc_optable) ["a"] [] = None /\
  linearize_fuel 1000 (make_deps cyc_optable) ["a"] [] = None /\
  compile (new_compiler cyc_optable) ["a"] [] = Diverges /\
  calculate (new_compiler cyc_optable) ["a"] [] = (Diverges, []).
Proof. repeat split; reflexivity. Qed.

(** ** Compilation and the caches *)

Lemma traverse_params_sorted ds r p ops ps :
  traverse ds r p = Some (ops, ps) -> sort ps = ps.
Proof.
  unfold traverse. destruct (traverse_loop _ _ _ _ _ _ _) as [[o q]|]; [|discriminate].
  intros H. injection H as _ <-. apply sort_idem.
Qed.

Lemma linearize_traverse ds r p l :
  linearize ds r p = Some l -> exists ops, traverse ds r p = Some (ops, l_params l).
Proof.
  unfold linearize, linearize_fuel.
  destruct (traverse ds r p) as [[ops ps]|] eqn:Ht; [|discriminate].
  destruct (lin_loop _ _ _ _ _); [|discriminate].
  intros H. injection H as <-. exists ops. reflexivity.
Qed.

Lemma synthesize_params r l : sf_params (synthesize r l) = l_params l.
Proof.
  unfold synthesize. destruct (assign_pids _) as [pids count].
  destruct (assign_vids _ _) as [[vids c] isA]. reflexivity.
Qed.

Lemma synthesize_returns r l : sf_returns (synthesize r l) = r.
Proof.
  unfold synthesize. destruct (assign_pids _) as [pids count].
  destruct (assign_vids _ _) as [[vids c] isA]. reflexivity.
Qed.

(** What a successful [compile] leaves in the state. *)
Lemma compile_facts s reqs pre s' f sf :
  compile s reqs pre = Ok (s', f, sf) ->
  exists l pc,
    linearize (deps s) (sort reqs) (sort pre) = Some l /\
    deps s' = deps s /\
    map_get (req_cache s') (req_key (sort reqs) (sort pre)) =
      Some {| ri_intermediates := l_intermediates l; ri_params := l_params l |} /\
    map_get (fn_cache s') (join NUL (sort reqs)) = Some pc /\
    map_get pc (join NUL (sort (l_params l))) = Some f /\
    sf_params sf = sort (l_params l).
Proof.
  unfold compile. destruct (linearize (deps s) (sort reqs) (sort pre)) as [l|] eqn:Hl;
    [|discriminate].
  unfold loadSource.
  destruct (link _ _ _) as [formulas| |]; try discriminate.
  intros H. injection H as <- <- <-.
  rewrite synthesize_params, synthesize_returns, sort_idem.
  eexists l, _. split; [reflexivity|]. split; [reflexivity|].
  split; [simpl; apply map_get_set_same|].
  split; [simpl; apply map_get_set_same|].
  split; [apply map_get_set_same | reflexivity].
Qed.

Lemma linearize_params_sorted ds r p l :
  linearize ds r p = Some l -> sort (l_params l) = l_params l.
Proof.
  intros H. destruct (linearize_traverse _ _ _ _ H) as [ops Ht].
  exact (traverse_params_sorted _ _ _ _ _ Ht).
Qed.

(** A repeated [getParams] is answered from its cache. *)
Lemma getParams_stable s r p s' ri :
  getParams s r p = Ok (s', ri) ->
  getParams s' r p = Ok (s', ri) /\ fn_cache s' = fn_cache s /\ deps s' = deps s.
Proof.
  unfold getParams. cbv zeta.
  destruct (map_get (req_cache s) (req_key (sort r) (sort p))) as [ri0|] eqn:Hc.
  - intros H. injection H as <- <-. rewrite Hc. auto.
  - destruct (traverse (deps s) (sort r) (sort p)) as [[ops ps]|]; [|discriminate].
    intros H. injection H as <- <-. simpl. rewrite map_get_set_same. auto.
Qed.

(** After [compile], [getCalculator] finds the new calculator. *)
Lemma compile_then_hit s reqs pre s1 f sf :
  compile s (sort reqs) pre = Ok (s1, f, sf) -> getCalculator s1 reqs pre = Ok (s1, f).
Proof.
  intros Hc.
  destruct (compile_facts _ _ _ _ _ _ Hc) as [l [pc [Hl [_ [Hrc [Hfc [Hpc _]]]]]]].
  rewrite sort_idem in Hfc.
  rewrite (linearize_params_sorted _ _ _ _ Hl) in Hpc.
  unfold getCalculator. cbv zeta. rewrite Hfc.
  unfold getParams. cbv zeta. rewrite Hrc. simpl. rewrite Hpc. reflexivity.
Qed.

Lemma leb_trans a b c :
  String.leb a b = true -> String.leb b c = true -> String.leb a c = true.
Proof.
  unfold String.leb.
  destruct (String.compare a b) eqn:E1; try discriminate;
  destruct (String.compare b c) eqn:E2; try discriminate; intros _ _.
  - apply String.compare_eq_iff in E1, E2. subst. destruct (String.compare c c) eqn:E; auto.
    pose proof (String.compare_antisym c c) as A. rewrite E in A. discriminate.
  - apply String.compare_eq_iff in E1. subst. rewrite E2. reflexivity.
  - apply String.compare_eq_iff in E2. subst. rewrite E1. reflexivity.
  - assert (H : OrdersEx.String_as_OT.lt a c).
    { eapply (RelationClasses.StrictOrder_Transitive (R := OrdersEx.String_as_OT.lt));
        [exact E1 | exact E2]. }
    change (String.compare a c = Lt) in H. rewrite H. reflexivity.
Qed.

Lemma sorted_head_le x l z : sorted (x :: l) = true -> In z l -> String.leb x z = true.
Proof.
  revert x. induction l as [|y l IH]; intros x Hs Hz; [destruct Hz|].
  rewrite sorted_cons2 in Hs. apply andb_prop in Hs as [Hxy Hs].
  destruct Hz as [<-|Hz]; [exact Hxy|].
  exact (leb_trans _ _ _ Hxy (IH y Hs Hz)).
Qed.

Lemma sorted_tail x l : sorted (x :: l) = true -> sorted l = true.
Proof.
  destruct l as [|y l]; [reflexivity|]. rewrite sorted_cons2.
  intros H. apply andb_prop in H. tauto.
Qed.

Lemma sorted_perm_eq l1 l2 :
  sorted l1 = true -> sorted l2 = true -> Permutation l1 l2 -> l1 = l2.
Proof.
  revert l2. induction l1 as [|x l1 IH]; intros l2 H1 H2 P.
  - symmetry. apply Permutation_nil, P.
  - destruct l2 as [|y l2]; [apply Permutation_sym, Permutation_nil in P; discriminate|].
    assert (Exy : x = y).
    { destruct (String.eqb_spec x y) as [|Hne]; [assumption|].
      assert (Hy : In y l1).
      { assert (H : In y (x :: l1)) by (apply (Permutation_in _ (Permutation_sym P)); left; reflexivity).
        destruct H; [congruence | assumption]. }
      assert (Hx : In x l2).
      { assert (H : In x (y :: l2)) by (apply (Permutation_in _ P); left; reflexivity).
        destruct H; [congruence | assumption]. }
      apply String.leb_antisym;
        [exact (sorted_head_le _ _ _ H1 Hy) | exact (sorted_head_le _ _ _ H2 Hx)]. }
    subst y. f_equal. apply IH; [exact (sorted_tail _ _ H1) | exact (sorted_tail _ _ H2)|].
    exact (Permutation_cons_inv P).
Qed.

Lemma sort_perm_eq l l' : Permutation l l' -> sort l = sort l'.
Proof.
  intros P. apply sorted_perm_eq; [apply sort_sorted | apply sort_sorted|].
  eapply Permutation_trans; [apply sort_perm|].
  eapply Permutation_trans; [exact P|]. apply Permutation_sym, sort_perm.
Qed.

(** ** C2 *)

(** A second call of [getCalculator] with the same lists is a cache hit. *)
Lemma getCalculator_hit_again s reqs pre s1 f :
  getCalculator s reqs pre = Ok (s1, f) -> getCalculator s1 reqs pre = Ok (s1, f).
Proof.
  unfold getCalculator at 1. cbv zeta.
  destruct (map_get (fn_cache s) (join NUL (sort reqs))) as [pc|] eqn:Hfc.
  - destruct (getParams s (sort reqs) pre) as [[s1' ri]| |] eqn:Hgp; try discriminate.
    destruct (map_get pc (join NUL (ri_params ri))) as [f'|] eqn:Hpc.
    + intros H. injection H as <- <-.
      destruct (getParams_stable _ _ _ _ _ Hgp) as [Hgp' [Hfc' _]].
      unfold getCalculator. cbv zeta. rewrite Hfc', Hfc, Hgp', Hpc. reflexivity.
    + unfold compiled_fn.
      destruct (compile s1' (sort reqs) pre) as [[[s2 f2] sf]| |] eqn:Hc; try discriminate.
      intros H. injection H as <- <-. exact (compile_then_hit _ _ _ _ _ _ Hc).
  - unfold compiled_fn.
    destruct (compile s (sort reqs) pre) as [[[s2 f2] sf]| |] eqn:Hc; try discriminate.
    intros H. injection H as <- <-. exact (compile_then_hit _ _ _ _ _ _ Hc).
Qed.

(** [getCalculator] sorts both lists before using them. *)
Lemma getCalculator_perm s r r' p p' :
  Permutation r r' -> Permutation p p' -> getCalculator s r p = getCalculator s r' p'.
Proof.
  intros Hr Hp.
  assert (Gp : forall t a, getParams t a p = getParams t a p').
  { intros t a. unfold getParams. rewrite (sort_perm_eq _ _ Hp). reflexivity. }
  assert (Gc : forall t a, compile t a p = compile t a p').
  { intros t a. unfold compile. rewrite (sort_perm_eq _ _ Hp). reflexivity. }
  unfold getCalculator. cbv zeta. rewrite (sort_perm_eq _ _ Hr), Gp, Gc.
  destruct (map_get (fn_cache s) (join NUL (sort r'))) as [pc|]; [|reflexivity].
  destruct (getParams s (sort r') p') as [[s1 ri]| |]; [|reflexivity|reflexivity].
  rewrite Gc. reflexivity.
Qed.

(** C2, corrected: a call of [getCalculator] right after another one whose
    requested names and precomputed hints are the same lists up to order
    (the same names, with the same multiplicities) returns the same
    function object (the same reference); it is a cache hit that compiles
    nothing and leaves the compiler state unchanged. *)
Theorem getCalculator_same_reference s reqs pre s1 f reqs' pre' :
  getCalculator s reqs pre = Ok (s1, f) ->
  Permutation reqs reqs' -> Permutation pre pre' ->
  getCalculator s1 reqs' pre' = Ok (s1, f).
Proof.
  intros H Hr Hp. rewrite <- (getCalculator_perm s1 _ _ _ _ Hr Hp).
  exact (getCalculator_hit_again _ _ _ _ _ H).
Qed.

Lemma getCalculator_same_reference_witness :
  exists s1 f, getCalculator ex_compiler ["addOne"; "double"] ["x"] = Ok (s1, f) /\
               getCalculator s1 ["double"; "addOne"] ["x"] = Ok (s1, f).
Proof.
  eexists. eexists. split; [reflexivity|].
  apply (getCalculator_same_reference ex_compiler ["addOne"; "double"] ["x"]);
    [reflexivity | apply perm_swap | apply Permutation_refl].
Defined.

(** C2, counterexample: the requested lists [['addOne', 'addOne']] and
    [['addOne']] are the same set, but the returns keys
    [returns.sort().join('\0')] differ ([addOne\0addOne] and [addOne]), so
    the second call misses the calculator cache and compiles a new
    function object. *)
Lemma getCalculator_duplicate_counterexample :
  exists s1 f s2 g,
    getCalculator ex_compiler ["addOne"; "addOne"] [] = Ok (s1, f) /\
    getCalculator s1 ["addOne"] [] = Ok (s2, g) /\
    ex_ref f = 0 /\ ex_ref g = 1.
Proof. do 4 eexists. repeat split; reflexivity. Qed.

(** ** C5 *)

Lemma fields_nonnil s : fields s <> [].
Proof.
  destruct s as [|c s]; simpl; [discriminate|].
  destruct (Ascii.eqb c (ascii_of_nat 0)); [discriminate|].
  destruct (fields s); discriminate.
Qed.

Lemma fields_app a b :
  fields (a +++ String (ascii_of_nat 0) b) = fields a ++ fields b.
Proof.
  induction a as [|c a IH]; [reflexivity|].
  cbn [String.append fields]. rewrite IH.
  destruct (Ascii.eqb c (ascii_of_nat 0)); [reflexivity|].
  destruct (fields a) as [|x r] eqn:E; [exfalso; exact (fields_nonnil _ E)|].
  reflexivity.
Qed.

Lemma fields_nul_free k : nul_free k = true -> fields k = [k].
Proof.
  induction k as [|c k IH]; [reflexivity|].
  cbn [nul_free fields]. intros H. apply andb_prop in H as [Hc Hk].
  apply negb_true_iff in Hc. rewrite Hc, (IH Hk). reflexivity.
Qed.

Lemma key_safe_nonempty k : key_safe k = true -> k <> "".
Proof.
  unfold key_safe. intros H ->. discriminate H.
Qed.

Lemma fields_join l :
  forallb key_safe l = true -> fields (join NUL l) = join_fields l.
Proof.
  induction l as [|x l IH]; [reflexivity|].
  cbn [forallb]. intros H. apply andb_prop in H as [Hx Hl].
  assert (Fx : fields x = [x]).
  { apply fields_nul_free. apply andb_prop in Hx as [_ Hx]. exact Hx. }
  destruct l as [|y l]; [exact Fx|].
  change (join NUL (x :: y :: l)) with (x +++ String (ascii_of_nat 0) (join NUL (y :: l))).
  rewrite fields_app, Fx, (IH Hl). reflexivity.
Qed.

Lemma fields_req_key r p :
  forallb key_safe r = true -> forallb key_safe p = true ->
  fields (req_key r p) = join_fields r ++ "" :: join_fields p.
Proof.
  intros Hr Hp. unfold req_key.
  change (NUL +++ NUL +++ join NUL p)
    with (String (ascii_of_nat 0) (String (ascii_of_nat 0) (join NUL p))).
  rewrite fields_app. cbn [fields Ascii.eqb ascii_of_nat ascii_of_pos Bool.eqb].
  rewrite (fields_join _ Hr), (fields_join _ Hp). reflexivity.
Qed.

Lemma split_at_empty (r1 r2 t1 t2 : list string) :
  forallb key_safe r1 = true -> forallb key_safe r2 = true ->
  r1 ++ "" :: t1 = r2 ++ "" :: t2 -> r1 = r2 /\ t1 = t2.
Proof.
  revert r2. induction r1 as [|x r1 IH]; intros [|y r2] H1 H2 E; simpl in *.
  - injection E as ->. auto.
  - injection E as Ey _. apply andb_prop in H2 as [Hy _].
    exfalso. exact (key_safe_nonempty _ Hy (eq_sym Ey)).
  - injection E as Ex _. apply andb_prop in H1 as [Hx _].
    exfalso. exact (key_safe_nonempty _ Hx Ex).
  - injection E as -> E. apply andb_prop in H1 as [_ H1]. apply andb_prop in H2 as [_ H2].
    destruct (IH _ H1 H2 E) as [-> ->]. auto.
Qed.

Lemma join_fields_inj l1 l2 :
  forallb key_safe l1 = true -> forallb key_safe l2 = true ->
  join_fields l1 = join_fields l2 -> l1 = l2.
Proof.
  destruct l1 as [|x l1], l2 as [|y l2]; simpl; intros H1 H2 E; auto.
  - apply andb_prop in H2 as [Hy _]. injection E as Ey Hl. subst l2.
    exfalso. exact (key_safe_nonempty _ Hy (eq_sym Ey)).
  - apply andb_prop in H1 as [Hx _]. injection E as Ex Hl. subst l1.
    exfalso. exact (key_safe_nonempty _ Hx Ex).
Qed.

(** For [key_safe] names, the [getParams] cache key determines the two
    lists. *)
Lemma req_key_inj r1 p1 r2 p2 :
  forallb key_safe r1 = true -> forallb key_safe p1 = true ->
  forallb key_safe r2 = true -> forallb key_safe p2 = true ->
  req_key r1 p1 = req_key r2 p2 -> r1 = r2 /\ p1 = p2.
Proof.
  intros Hr1 Hp1 Hr2 Hp2 E.
  apply (f_equal fields) in E. rewrite !fields_req_key in E by assumption.
  assert (Hrp : r1 = r2 /\ join_fields p1 = join_fields p2).
  { destruct r1 as [|x r1], r2 as [|y r2]; simpl in E.
    - injection E as E. auto.
    - injection E as Ey _. simpl in Hr2. apply andb_prop in Hr2 as [Hy _].
      exfalso. exact (key_safe_nonempty _ Hy (eq_sym Ey)).
    - injection E as Ex _. simpl in Hr1. apply andb_prop in Hr1 as [Hx _].
      exfalso. exact (key_safe_nonempty _ Hx Ex).
    - exact (split_at_empty (x :: r1) (y :: r2) _ _ Hr1 Hr2 E). }
  destruct Hrp as [-> Hp]. split; [reflexivity|]. exact (join_fields_inj _ _ Hp1 Hp2 Hp).
Qed.

Lemma forallb_sort f l : forallb f (sort l) = forallb f l.
Proof.
  apply eq_true_iff_eq. rewrite !forallb_forall.
  split; intros H x Hx; apply H; [apply (proj2 (In_sort x l)) | apply In_sort]; exact Hx.
Qed.

Lemma cache_keyed_set s r p l :
  cache_keyed s -> forallb key_safe r = true -> forallb key_safe p = true ->
  (exists ops, traverse (deps s) r p = Some (ops, l)) ->
  forall its, cache_keyed (set_req_cache s (map_set (req_cache s) (req_key r p)
                                             {| ri_intermediates := its; ri_params := l |})).
Proof.
  intros Hk Hr Hp [ops Ht] its key ri. cbn [req_cache set_req_cache deps].
  rewrite map_get_set. destruct (String.eqb key (req_key r p)) eqn:E.
  - apply String.eqb_eq in E. intros H. injection H as <-. exists r, p, ops. auto.
  - exact (Hk key ri).
Qed.

Lemma loadSource_keeps s src s' f sf :
  loadSource s src = Ok (s', f, sf) -> deps s' = deps s /\ req_cache s' = req_cache s.
Proof.
  unfold loadSource. destruct (link _ _ _); try discriminate.
  intros H. injection H as <- _ _. auto.
Qed.

Lemma cache_keyed_same s s' :
  deps s' = deps s -> req_cache s' = req_cache s -> cache_keyed s -> cache_keyed s'.
Proof. intros Hd Hr Hk key ri. rewrite Hd, Hr. exact (Hk key ri). Qed.

Lemma getParams_keyed s r p s' ri :
  cache_keyed s -> forallb key_safe r = true -> forallb key_safe p = true ->
  getParams s r p = Ok (s', ri) -> cache_keyed s'.
Proof.
  intros Hk Hr Hp. unfold getParams. cbv zeta.
  destruct (map_get (req_cache s) (req_key (sort r) (sort p))).
  - intros H. injection H as <- _. exact Hk.
  - destruct (traverse (deps s) (sort r) (sort p)) as [[ops ps]|] eqn:Ht; [|discriminate].
    intros H. injection H as <- _.
    apply cache_keyed_set; [exact Hk | rewrite forallb_sort; exact Hr
                           | rewrite forallb_sort; exact Hp | exists ops; exact Ht].
Qed.

Lemma compile_cache_keyed s r p l :
  cache_keyed s -> forallb key_safe r = true -> forallb key_safe p = true ->
  linearize (deps s) (sort r) (sort p) = Some l ->
  cache_keyed (set_req_cache s (map_set (req_cache s) (req_key (sort r) (sort p))
    {| ri_intermediates := l_intermediates l; ri_params := l_params l |})).
Proof.
  intros Hk Hr Hp Hl.
  apply cache_keyed_set; [exact Hk | rewrite forallb_sort; exact Hr
                         | rewrite forallb_sort; exact Hp | exact (linearize_traverse _ _ _ _ Hl)].
Qed.

Lemma compile_keyed s r p s' f sf :
  cache_keyed s -> forallb key_safe r = true -> forallb key_safe p = true ->
  compile s r p = Ok (s', f, sf) -> cache_keyed s'.
Proof.
  intros Hk Hr Hp. unfold compile.
  destruct (linearize (deps s) (sort r) (sort p)) as [l|] eqn:Hl; [|discriminate].
  intros H. destruct (loadSource_keeps _ _ _ _ _ H) as [Hd Hc].
  exact (cache_keyed_same _ _ Hd Hc (compile_cache_keyed _ _ _ _ Hk Hr Hp Hl)).
Qed.

Lemma getCalculator_keyed s r p s' f :
  cache_keyed s -> forallb key_safe r = true -> forallb key_safe p = true ->
  getCalculator s r p = Ok (s', f) -> cache_keyed s'.
Proof.
  intros Hk Hr Hp. assert (Hr' : forallb key_safe (sort r) = true) by (rewrite forallb_sort; exact Hr).
  unfold getCalculator. cbv zeta.
  destruct (map_get (fn_cache s) (join NUL (sort r))) as [pc|].
  - destruct (getParams s (sort r) p) as [[s1 ri]| |] eqn:Hgp; try discriminate.
    pose proof (getParams_keyed _ _ _ _ _ Hk Hr' Hp Hgp) as Hk1.
    destruct (map_get pc (join NUL (ri_params ri))).
    + intros H. injection H as <- _. exact Hk1.
    + unfold compiled_fn. destruct (compile s1 (sort r) p) as [[[s2 f2] sf]| |] eqn:Hc;
        try discriminate.
      intros H. injection H as <- _. exact (compile_keyed _ _ _ _ _ _ Hk1 Hr' Hp Hc).
  - unfold compiled_fn. destruct (compile s (sort r) p) as [[[s2 f2] sf]| |] eqn:Hc;
      try discriminate.
    intros H. injection H as <- _. exact (compile_keyed _ _ _ _ _ _ Hk Hr' Hp Hc).
Qed.

Lemma safe_reachable_keyed s : safe_reachable s -> cache_keyed s.
Proof.
  induction 1 as [optable
                 | s r p s' ri _ IH Hr Hp H
                 | s r p l _ IH Hr Hp Hl
                 | s r p s' f sf _ IH Hr Hp H
                 | s r p s' f _ IH Hr Hp H
                 | s r args s' o tr _ IH Hr Hp H
                 | s src s' f sf _ IH H].
  - intros key ri H. discriminate H.
  - exact (getParams_keyed _ _ _ _ _ IH Hr Hp H).
  - exact (compile_cache_keyed _ _ _ _ IH Hr Hp Hl).
  - exact (compile_keyed _ _ _ _ _ _ IH Hr Hp H).
  - exact (getCalculator_keyed _ _ _ _ _ IH Hr Hp H).
  - revert H. unfold calculate.
    destruct (getCalculator s r _) as [[s1 f]| |] eqn:Hg; try discriminate.
    destruct (invoke (deps s1) f args) as [[o'| |] tr']; try discriminate.
    intros H. injection H as <- _. exact (getCalculator_keyed _ _ _ _ _ IH Hr Hp Hg).
  - destruct (loadSource_keeps _ _ _ _ _ H) as [Hd Hc]. exact (cache_keyed_same _ _ Hd Hc IH).
Qed.

(** C5, corrected: on a compiler used only with [key_safe] names (not
    empty, no NUL), [getParams] and [compile] for the same requested names
    and hints give the same [params] list, hence the same set; after
    [compile], [getParams] answers that list from its cache. *)
Theorem getParams_compile_same_params s reqs pre s1 ri s2 f sf :
  safe_reachable s ->
  forallb key_safe reqs = true -> forallb key_safe pre = true ->
  getParams s reqs pre = Ok (s1, ri) ->
  compile s reqs pre = Ok (s2, f, sf) ->
  ri_params ri = sf_params sf /\
  (forall x, In x (ri_params ri) <-> In x (sf_params sf)) /\
  exists ri', getParams s2 reqs pre = Ok (s2, ri') /\ ri_params ri' = sf_params sf.
Proof.
  intros Hreach Hr Hp Hgp Hc.
  pose proof (safe_reachable_keyed _ Hreach) as Hk.
  destruct (compile_facts _ _ _ _ _ _ Hc) as [l [pc [Hl [_ [Hrc [_ [_ Hsf]]]]]]].
  rewrite (linearize_params_sorted _ _ _ _ Hl) in Hsf.
  destruct (linearize_traverse _ _ _ _ Hl) as [ops Ht].
  assert (Heq : ri_params ri = sf_params sf).
  { rewrite Hsf. unfold getParams in Hgp. cbv zeta in Hgp.
    destruct (map_get (req_cache s) (req_key (sort reqs) (sort pre))) as [ri0|] eqn:Hkey.
    - injection Hgp as _ <-.
      destruct (Hk _ _ Hkey) as (r' & p' & ops' & Hr' & Hp' & E & Ht').
      destruct (req_key_inj _ _ _ _ (eq_trans (forallb_sort _ _) Hr) (eq_trans (forallb_sort _ _) Hp)
                  Hr' Hp' E) as [<- <-].
      rewrite Ht in Ht'. injection Ht' as _ <-. reflexivity.
    - rewrite Ht in Hgp. injection Hgp as _ <-. reflexivity. }
  split; [exact Heq|]. split; [rewrite Heq; tauto|].
  eexists. split.
  - unfold getParams. cbv zeta. rewrite Hrc. reflexivity.
  - simpl. symmetry. exact Hsf.
Qed.

(** The compiler after [getParams(['double'])], asked for [['addOne']]. *)
Lemma getParams_compile_same_params_witness :
  exists s0 ri0 s1 ri s2 f sf,
    getParams ex_compiler ["double"] [] = Ok (s0, ri0) /\
    getParams s0 ["addOne"] [] = Ok (s1, ri) /\
    compile s0 ["addOne"] [] = Ok (s2, f, sf) /\
    ri_params ri = sf_params sf.
Proof.
  do 7 eexists. split; [reflexivity|]. split; [reflexivity|]. split; [reflexivity|].
  refine (proj1 (getParams_compile_same_params _ ["addOne"] [] _ _ _ _ _
                   (sr_getParams ex_compiler ["double"] [] _ _ (sr_new _) eq_refl eq_refl eq_refl)
                   eq_refl eq_refl _ _)); reflexivity.
Defined.

(** C5, counterexample: the keys of [([], [])] and [([''], [])] are both
    [\0\0].  After [getParams([], [])], [getParams([''])] answers the
    cached [params] [[]], while [compile([''])] computes [['']] (the empty
    name is unregistered, so it is a parameter). *)
Lemma getParams_key_collision_counterexample :
  exists s1 ri0 s2 ri s3 f sf,
    getParams ex_compiler [] [] = Ok (s1, ri0) /\
    getParams s1 [""] [] = Ok (s2, ri) /\
    compile s1 [""] [] = Ok (s3, f, sf) /\
    ri_params ri = [] /\ sf_params sf = [""].
Proof. do 7 eexists. repeat split; reflexivity. Qed.

(** ** C3 *)




(** ** C8 *)

Lemma link_missing ds req acc k v :
  In (k, v) req -> map_get ds k = None -> link ds req acc = Throw TypeError.
Proof.
  revert acc. induction req as [|[k' v'] req IH]; intros acc Hin Hk; [destruct Hin|].
  simpl. destruct (map_get ds k') as [op|] eqn:Hk'; [|reflexivity].
  destruct Hin as [Heq|Hin].
  - injection Heq as -> ->. congruence.
  - exact (IH _ Hin Hk).
Qed.

(** C8: loading a record one of whose [formulas] keys has no operation in
    the compiler's registry throws (the [TypeError] of reading [.fn] of
    [undefined]); no calculator is bound or cached for that load. *)
Theorem loadSource_missing_operation_fails s source k v :
  In (k, v) (sf_formulas source) -> map_get (deps s) k = None ->
  loadSource s source = Throw TypeError.
Proof.
  intros Hin Hk. unfold loadSource. rewrite (link_missing _ _ [] k v Hin Hk). reflexivity.
Qed.

Lemma loadSource_missing_operation_fails_witness :
  loadSource ex_compiler orphan_record = Throw TypeError.
Proof.
  apply (loadSource_missing_operation_fails ex_compiler orphan_record "triple" (IdV 1)).
  - simpl. left. reflexivity.
  - reflexivity.
Defined.

(** ** C6 *)

(** C6: with [double(x) = 2x] and [addOne(double) = double + 1]:
    [getParams(['addOne'])] gives params [['x']] and intermediates
    [['double']]; [calculate(['addOne'], {x: 3})] gives [{addOne: 7}];
    [calculate(['addOne'], {double: 10})] gives [{addOne: 11}], on a fresh
    compiler as after the first call, calling only the formula of
    [addOne]: [double], given, is a raw input ([getParams] with
    [double] precomputed has params [['double']] and no intermediates). *)
Theorem double_addOne_example :
  (exists s1, getParams ex_compiler ["addOne"] [] =
     Ok (s1, {| ri_intermediates := ["double"]; ri_params := ["x"] |})) /\
  (exists s1, getParams ex_compiler ["addOne"] ["double"] =
     Ok (s1, {| ri_intermediates := []; ri_params := ["double"] |})) /\
  (exists s1 tr, calculate ex_compiler ["addOne"] [("x", VNum 3)] =
     (Ok (s1, [("addOne", VNum 7)]), tr) /\
   exists s2, calculate s1 ["addOne"] [("double", VNum 10)] =
     (Ok (s2, [("addOne", VNum 11)]), [IdV 1])) /\
  (exists s1, calculate ex_compiler ["addOne"] [("double", VNum 10)] =
     (Ok (s1, [("addOne", VNum 11)]), [IdV 1])).
Proof.
  split; [eexists; reflexivity|].
  split; [eexists; reflexivity|].
  split; [|eexists; reflexivity].
  do 2 eexists. split; [reflexivity|]. eexists. reflexivity.
Qed.

(** ** C10 *)

Lemma store_update_length st l o : List.length (store_update st l o) = List.length st.
Proof.
  revert l. induction st as [|o' st IH]; intros [|l]; simpl; auto.
Qed.

Lemma store_update_other st l o l' :
  l <> l' -> nth_error (store_update st l o) l' = nth_error st l'.
Proof.
  revert l l'. induction st as [|o' st IH]; intros [|l] [|l'] Hne; simpl; try reflexivity.
  - congruence.
  - apply IH. congruence.
Qed.

Lemma frame_refl vals st : frame vals st st.
Proof. split; auto. Qed.

Lemma frame_trans vals st1 st2 st3 :
  frame vals st1 st2 -> frame vals st2 st3 -> frame vals st1 st3.
Proof.
  intros [L1 H1] [L2 H2]. split; [congruence|]. intros l Hl. rewrite H2, H1; auto.
Qed.

Lemma frame_obj_set vals st k v : frame vals st (obj_set st vals k v).
Proof.
  unfold obj_set. split; [apply store_update_length|].
  intros l Hl. apply store_update_other. congruence.
Qed.

Lemma calc_args_frame vals calc ns st r st' :
  (forall n st0 r0 st1, calc n st0 = (r0, st1) -> frame vals st0 st1) ->
  calc_args calc ns st = (r, st') -> frame vals st st'.
Proof.
  intros Hc. revert st r st'. induction ns as [|n ns IH]; intros st r st' E; simpl in E.
  - injection E as _ <-. apply frame_refl.
  - destruct (calc n st) as [[v| |] st1] eqn:En; pose proof (Hc _ _ _ _ En) as F1.
    + destruct (calc_args calc ns st1) as [[vs| |] st2] eqn:Er;
        injection E as _ <-; exact (frame_trans _ _ _ _ F1 (IH _ _ _ Er)).
    + injection E as _ <-. exact F1.
    + injection E as _ <-. exact F1.
Qed.

Lemma calcValue_frame fuel ds req vals st r st' :
  calcValue fuel ds req vals st = (r, st') -> frame vals st st'.
Proof.
  revert req st r st'. induction fuel as [|fuel IH]; intros req st r st' E; simpl in E.
  - injection E as _ <-. apply frame_refl.
  - destruct (map_get (obj_at st vals) req); [injection E as _ <-; apply frame_refl|].
    destruct (map_get ds req) as [op|]; [|injection E as _ <-; apply frame_refl].
    destruct (calc_args _ (inputs op) st) as [[args| |] st1] eqn:Ea;
      pose proof (calc_args_frame vals _ _ _ _ _ (fun n st0 r0 st1 => IH n st0 r0 st1) Ea) as F;
      injection E as _ <-; [|exact F|exact F].
    exact (frame_trans _ _ _ _ F (frame_obj_set _ _ _ _)).
Qed.

Lemma interp_loop_frame fuel ds vals reqs ret st r st' :
  interp_loop fuel ds vals reqs ret st = (r, st') -> frame vals st st'.
Proof.
  revert ret st. induction reqs as [|v reqs IH]; intros ret st E; simpl in E.
  - injection E as _ <-. apply frame_refl.
  - destruct (calcValue fuel ds v vals st) as [r1 st1] eqn:Ec.
    pose proof (calcValue_frame _ _ _ _ _ _ _ Ec) as F.
    destruct r1 as [x|[| | |m]|].
    + exact (frame_trans _ _ _ _ F (IH _ _ E)).
    + injection E as _ <-. exact F.
    + injection E as _ <-. exact F.
    + injection E as _ <-. exact F.
    + destruct (String.eqb m EmptyString); injection E as _ <-; exact F.
    + injection E as _ <-. exact F.
Qed.

(** C10: [interpret] works on a fresh copy of the argument object: after
    the call, succeeded or failed, the caller's object [args], and every
    other object allocated before the call, holds exactly what it held
    before. *)
Theorem interpret_preserves_args fuel ds reqs args st r st' :
  args < List.length st ->
  interpret fuel ds reqs args st = (r, st') ->
  nth_error st' args = nth_error st args /\
  forall l, l < List.length st -> nth_error st' l = nth_error st l.
Proof.
  intros Ha E. unfold interpret, alloc in E.
  destruct (interp_loop_frame _ _ _ _ _ _ _ _ E) as [_ F].
  assert (G : forall l, l < List.length st -> nth_error st' l = nth_error st l).
  { intros l Hl. rewrite F by lia. apply nth_error_app1. exact Hl. }
  split; [apply G, Ha | exact G].
Qed.

Lemma interpret_preserves_args_witness :
  exists st', interpret 10 (deps ex_compiler) ["addOne"] 0 [[("x", VNum 3)]] =
                (Ok [("addOne", VNum 7)], st') /\
              nth_error st' 0 = Some [("x", VNum 3)].
Proof.
  eexists. split; [reflexivity|].
  refine (proj1 (interpret_preserves_args 10 (deps ex_compiler) ["addOne"] 0
                   [[("x", VNum 3)]] (Ok [("addOne", VNum 7)]) _ _ _)).
  - simpl. lia.
  - reflexivity.
Defined.

(** ** C9 *)

Lemma calc_args_throw calc ns st e st' :
  calc_args calc ns st = (Throw e, st') ->
  exists n st0 st1, In n ns /\ calc n st0 = (Throw e, st1).
Proof.
  revert st. induction ns as [|n ns IH]; intros st E; simpl in E; [discriminate|].
  destruct (calc n st) as [[v| e' |] st1] eqn:En.
  - destruct (calc_args calc ns st1) as [[vs| |] st2] eqn:Er; try discriminate.
    injection E as -> ->.
    destruct (IH _ Er) as (n' & st0 & st3 & Hin & Hc).
    exists n', st0, st3. split; [right; exact Hin | exact Hc].
  - injection E as -> _. exists n, st, st1. split; [left; reflexivity | exact En].
  - discriminate.
Qed.

Lemma calcValue_missing fuel ds req vals st m st' :
  calcValue fuel ds req vals st = (Throw (MissingSignal m), st') ->
  map_get ds m = None /\ reaches ds req m.
Proof.
  revert req st st'. induction fuel as [|fuel IH]; intros req st st' E; simpl in E;
    [discriminate|].
  destruct (map_get (obj_at st vals) req); [discriminate|].
  destruct (map_get ds req) as [op|] eqn:Hop.
  - destruct (calc_args _ (inputs op) st) as [[args| e |] st1] eqn:Ea; try discriminate.
    injection E as -> _.
    destruct (calc_args_throw _ _ _ _ _ Ea) as (i & st0 & st2 & Hi & Hc).
    destruct (IH _ _ _ Hc) as [Hm Hr].
    split; [exact Hm | exact (reaches_step ds req op i m Hop Hi Hr)].
  - injection E as -> _. split; [exact Hop | apply reaches_refl].
Qed.

(** C9: when the depth-first, left-to-right resolution of the requested
    name [T] stops at a name [m] (non-empty) that is neither in the working
    copy nor registered, the [for]/[catch] loop of [interpret] fails with
    the one diagnostic naming [T] and [m]; [m] is unregistered and
    reachable from [T] through declared inputs (the first such name met
    by the resolution, not necessarily the nearest one). *)
Theorem interpret_missing_diagnostic fuel ds vals T rest ret st m st' :
  calcValue fuel ds T vals st = (Throw (MissingSignal m), st') -> m <> EmptyString ->
  interp_loop fuel ds vals (T :: rest) ret st = (Throw (ErrorMsg (cannot_msg T m)), st') /\
  map_get ds m = None /\ reaches ds T m.
Proof.
  intros E Hm. split; [|exact (calcValue_missing _ _ _ _ _ _ _ E)].
  simpl. rewrite E. destruct (String.eqb_spec m EmptyString); [contradiction | reflexivity].
Qed.

Lemma interpret_missing_diagnostic_witness :
  interpret 10 deep_deps ["T"] 0 [[]] =
    (Throw (ErrorMsg "Cannot calculate [T]; missing required input [m2]."), [[]; []]).
Proof.
  apply (interpret_missing_diagnostic 10 deep_deps 1 "T" [] [] [[]; []] "m2" [[]; []]).
  - reflexivity.
  - discriminate.
Defined.

(** Counterexample to C9 as stated: [T] has the unregistered direct input
    [m] (one step away), yet the diagnostic names [m2], reached two steps
    away through [A], because [A] comes first among [T]'s inputs. *)
Lemma interpret_not_nearest_missing_counterexample :
  map_get deep_deps "T" = Some op_T /\ inputs op_T = ["A"; "m"] /\
  map_get deep_deps "A" = Some op_A /\ inputs op_A = ["m2"] /\
  map_get deep_deps "m" = None /\ map_get deep_deps "m2" = None /\
  fst (interpret 10 deep_deps ["T"] 0 [[]]) =
    Throw (ErrorMsg "Cannot calculate [T]; missing required input [m2].").
Proof. repeat split. Qed.

(** ** C4 *)

Lemma traverse_loop_nodup fuel ds precomp visited operations params stack ops' params' :
  NoDup operations -> (forall v, In v operations -> In v visited) ->
  (forall v, In v operations -> map_get ds v <> None) ->
  traverse_loop fuel ds precomp visited operations params stack = Some (ops', params') ->
  NoDup ops' /\ forall v, In v ops' -> map_get ds v <> None.
Proof.
  revert visited operations params stack.
  induction fuel as [|fuel IH]; intros visited operations params stack H1 H2 H3 E.
  - destruct stack; simpl in E; [injection E as <- _; auto | discriminate].
  - destruct stack as [|v stack]; simpl in E; [injection E as <- _; auto|].
    destruct (mem v visited) eqn:Hv; [exact (IH _ _ _ _ H1 H2 H3 E)|].
    destruct (map_get ds v) as [op|] eqn:Hop.
    + destruct (mem v precomp).
      * refine (IH _ _ _ _ H1 _ H3 E). intros w Hw. right. auto.
      * refine (IH _ _ _ _ _ _ _ E).
        -- apply Permutation_NoDup with (v :: operations); [apply Permutation_cons_append|].
           constructor; [|exact H1]. intros Hin. apply H2, mem_In in Hin. congruence.
        -- intros w Hw. apply in_app_or in Hw as [Hw|[<-|[]]]; [right; auto | left; reflexivity].
        -- intros w Hw. apply in_app_or in Hw as [Hw|[<-|[]]]; [auto | congruence].
    + refine (IH _ _ _ _ H1 _ H3 E). intros w Hw. right. auto.
Qed.

Lemma lin_nodes_outputs ds ops :
  deps_wf ds -> (forall v, In v ops -> map_get ds v <> None) ->
  map nd_outputs (lin_nodes ds ops) = ops.
Proof.
  intros Hwf. induction ops as [|v ops IH]; intros Hreg; [reflexivity|].
  simpl. destruct (map_get ds v) as [op|] eqn:Hop.
  - simpl. rewrite (Hwf _ _ Hop), IH; [reflexivity|]. intros w Hw. apply Hreg. right. exact Hw.
  - exfalso. apply (Hreg v); [left; reflexivity | exact Hop].
Qed.

Lemma lin_pass_perm ds c nodes c' a s n :
  deps_wf ds -> (forall v, In v (map nd_outputs nodes) -> map_get ds v <> None) ->
  lin_pass ds c nodes = (c', a, s, n) ->
  Permutation (map nd_outputs nodes) (map outputs a ++ map outputs s ++ map nd_outputs n).
Proof.
  intros Hwf. revert c c' a s n.
  induction nodes as [|nd rest IH]; intros c c' a s n Hreg E; simpl in E.
  - injection E as <- <- <- <-. constructor.
  - assert (Hrest : forall v, In v (map nd_outputs rest) -> map_get ds v <> None).
    { intros v Hv. apply Hreg. right. exact Hv. }
    destruct (filter (fun v => negb (mem v c)) (nd_inputs nd)) as [|x xs].
    + destruct (lin_pass ds (nd_outputs nd :: c) rest) as [[[c1 a1] s1] n1] eqn:Er.
      specialize (IH _ _ _ _ _ Hrest Er).
      destruct (map_get ds (nd_outputs nd)) as [op|] eqn:Hop;
        [|exfalso; apply (Hreg (nd_outputs nd)); [left; reflexivity | exact Hop]].
      destruct (nd_async nd); injection E as <- <- <- <-; cbn [map app];
        rewrite (Hwf _ _ Hop).
      * constructor. exact IH.
      * apply Permutation_cons_app. exact IH.
    + destruct (lin_pass ds c rest) as [[[c1 a1] s1] n1] eqn:Er.
      specialize (IH _ _ _ _ _ Hrest Er).
      injection E as <- <- <- <-. cbn [map app nd_outputs].
      rewrite app_assoc. apply Permutation_cons_app. rewrite <- app_assoc. exact IH.
Qed.

Lemma sched_outputs_app b1 b2 :
  sched_outputs (b1 ++ b2) = sched_outputs b1 ++ sched_outputs b2.
Proof. unfold sched_outputs. apply flat_map_app. Qed.

Lemma lin_loop_perm fuel ds c nodes blocks blocks' :
  deps_wf ds -> (forall v, In v (map nd_outputs nodes) -> map_get ds v <> None) ->
  lin_loop fuel ds c nodes blocks = Some blocks' ->
  Permutation (sched_outputs blocks ++ map nd_outputs nodes) (sched_outputs blocks').
Proof.
  intros Hwf. revert c nodes blocks.
  induction fuel as [|fuel IH]; intros c nodes blocks Hreg E.
  - destruct nodes; simpl in E; [|discriminate].
    injection E as <-. rewrite app_nil_r. apply Permutation_refl.
  - destruct nodes as [|nd rest]; cbn [lin_loop] in E.
    + injection E as <-. rewrite app_nil_r. apply Permutation_refl.
    + destruct (lin_pass ds c (nd :: rest)) as [[[c1 a] s] n] eqn:Ep.
      pose proof (lin_pass_perm _ _ _ _ _ _ _ Hwf Hreg Ep) as P.
      assert (Hn : forall v, In v (map nd_outputs n) -> map_get ds v <> None).
      { intros v Hv. apply Hreg. apply (Permutation_in _ (Permutation_sym P)).
        apply in_or_app. right. apply in_or_app. right. exact Hv. }
      specialize (IH _ _ _ Hn E). rewrite sched_outputs_app in IH.
      eapply Permutation_trans; [|exact IH].
      cbn [sched_outputs flat_map] in *. rewrite app_nil_r, <- !app_assoc.
      apply Permutation_app_head. exact P.
Qed.

(** Every operation the traversal requires is scheduled in exactly one
    wave: the scheduled outputs are the required operations, without
    repetition. *)
Lemma linearize_schedules_each_once ds reqs pre l :
  deps_wf ds -> linearize ds reqs pre = Some l ->
  exists ops, traverse ds reqs pre = Some (ops, l_params l) /\
    Permutation ops (sched_outputs (l_blocks l)) /\ NoDup (sched_outputs (l_blocks l)).
Proof.
  intros Hwf. unfold linearize, linearize_fuel.
  destruct (traverse ds reqs pre) as [[ops ps]|] eqn:Ht; [|discriminate].
  destruct (lin_loop _ _ _ _ _) as [blocks|] eqn:El; [|discriminate].
  intros H. injection H as <-. exists ops. split; [reflexivity|]. cbn [l_blocks].
  unfold traverse in Ht.
  destruct (traverse_loop _ _ _ _ _ _ _) as [[o p]|] eqn:E; [|discriminate].
  injection Ht as -> _.
  destruct (traverse_loop_nodup _ _ _ _ _ _ _ _ _ (NoDup_nil _)
              (fun v (H : In v []) => match H with end)
              (fun v (H : In v []) => match H with end) E) as [Hnd Hreg].
  assert (P : Permutation ops (sched_outputs blocks)).
  { rewrite <- (lin_nodes_outputs ds ops Hwf Hreg) at 1.
    refine (lin_loop_perm _ _ _ _ [] _ Hwf _ El).
    rewrite (lin_nodes_outputs ds ops Hwf Hreg). exact Hreg. }
  split; [exact P | exact (Permutation_NoDup P Hnd)].
Qed.

(** C4 fails on the registry of an asynchronous [a(x)], a synchronous
    [s(y)] and a synchronous [t(a)], for [calculate(['s', 't'], {x: 1, y: 2})].
    The schedule runs each operation in exactly one wave: [a] and [s]
    together, then [t].  The generated body declares [a0] for the promise
    of [a], then reads [await a1]: the call throws a [ReferenceError]
    after invoking the formulas of [a] ([v2]) and [s] ([v3]), and the
    formula of [t] ([v4]) is never invoked. *)
Theorem mixed_wave_awaits_undeclared :
  linearize (deps mixed_compiler) ["s"; "t"] [] =
    Some {| l_blocks := [([op_async_a], [op_sync_s]); ([], [op_sync_t])];
            l_params := ["x"; "y"]; l_intermediates := ["a"] |} /\
  (exists s' f sf, compile mixed_compiler ["s"; "t"] ["x"; "y"] = Ok (s', f, sf) /\
     sf_formulas sf = [("a", IdV 2); ("s", IdV 3); ("t", IdV 4)]) /\
  calculate mixed_compiler ["s"; "t"] [("x", VNum 1); ("y", VNum 2)] =
    (Throw (ReferenceError (IdA 1)), [IdV 2; IdV 3]).
Proof.
  split; [reflexivity|]. split; [|reflexivity].
  do 3 eexists. split; reflexivity.
Qed.

(** * Further properties of the compiler *)

(** ** The string order and canonical sorting *)

(** ** The constructor *)

Lemma find_app {A} (p : A -> bool) l1 l2 :
  find p (l1 ++ l2) = match find p l1 with Some x => Some x | None => find p l2 end.
Proof.
  induction l1 as [|a l1 IH]; simpl; [reflexivity|]. destruct (p a); [reflexivity | exact IH].
Qed.

(** The registry the constructor builds maps a name to the last spec of
    the table with that [outputs]: a later spec for the same name replaces
    an earlier one, and a name no spec produces is absent. *)
Theorem constructor_last_spec_wins optable k :
  map_get (make_deps optable) k = last_spec optable k.
Proof.
  unfold make_deps, last_spec.
  assert (G : forall d,
    map_get (fold_left (fun d spec => map_set d (outputs spec) spec) optable d) k =
    match find (fun op => String.eqb (outputs op) k) (rev optable) with
    | Some op => Some op
    | None => map_get d k
    end).
  { induction optable as [|spec optable IH]; intros d; simpl; [reflexivity|].
    rewrite IH, find_app. simpl. rewrite map_get_set, (String.eqb_sym (outputs spec) k).
    destruct (find _ (rev optable)); [reflexivity|].
    destruct (String.eqb k (outputs spec)); reflexivity. }
  rewrite G. destruct (find _ _); reflexivity.
Qed.

(** ** What [traverse] computes *)

Lemma tinv_nil ds pre reqs visited operations params :
  tinv ds pre reqs visited operations params [] ->
  tinv ds pre reqs (operations ++ params) operations params [].
Proof.
  intros (I1 & I2 & I3 & I4 & I5). unfold tinv.
  assert (V : forall v, In v visited <-> In v (operations ++ params)).
  { intros v. rewrite in_app_iff. apply I1. }
  split; [intros v; rewrite in_app_iff; tauto|].
  split; [|split; [exact I3|split]].
  - intros v Hv. destruct (I2 v Hv) as (op & Hop & Hp & Hi).
    exists op. split; [exact Hop|]. split; [exact Hp|].
    intros i Hii. left. apply V. destruct (Hi i Hii) as [H|[]]. exact H.
  - intros r Hr. left. apply V. destruct (I4 r Hr) as [H|[]]. exact H.
  - intros v [Hv|[]]. apply I5. left. apply V. exact Hv.
Qed.

Lemma traverse_loop_tinv fuel ds pre reqs visited operations params stack ops' params' :
  tinv ds pre reqs visited operations params stack ->
  traverse_loop fuel ds pre visited operations params stack = Some (ops', params') ->
  tinv ds pre reqs (ops' ++ params') ops' params' [].
Proof.
  revert visited operations params stack.
  induction fuel as [|fuel IH]; intros visited operations params stack Hinv E.
  - destruct stack; simpl in E; [|discriminate].
    injection E as <- <-. exact (tinv_nil _ _ _ _ _ _ Hinv).
  - destruct stack as [|v stack]; simpl in E.
    { injection E as <- <-. exact (tinv_nil _ _ _ _ _ _ Hinv). }
    destruct Hinv as (I1 & I2 & I3 & I4 & I5).
    destruct (mem v visited) eqn:Hv.
    + apply mem_In in Hv. refine (IH _ _ _ _ _ E).
      split; [exact I1|]. split; [|split; [exact I3|split]].
      * intros w Hw. destruct (I2 w Hw) as (op & Hop & Hp & Hi).
        exists op. split; [exact Hop|]. split; [exact Hp|].
        intros i Hii. destruct (Hi i Hii) as [H|[<-|H]]; auto.
      * intros r Hr. destruct (I4 r Hr) as [H|[<-|H]]; auto.
      * intros w [Hw|Hw]; apply I5; [left; exact Hw | right; right; exact Hw].
    + assert (Hreach : exists r, In r reqs /\ plan_reaches ds pre r v)
        by (apply I5; right; left; reflexivity).
      (* the common part: [v] moves from the stack to [visited] *)
      assert (Move : forall i, In i visited \/ In i (v :: stack) -> In i (v :: visited) \/ In i stack).
      { intros i [H|[<-|H]]; [left; right; exact H | left; left; reflexivity | right; exact H]. }
      assert (Back : forall w, In w (v :: visited) \/ In w stack -> In w visited \/ In w (v :: stack)).
      { intros w [[<-|H]|H]; [right; left; reflexivity | left; exact H | right; right; exact H]. }
      assert (AsParam : map_get ds v = None \/ mem v pre = true ->
                traverse_loop fuel ds pre (v :: visited) operations (params ++ [v]) stack =
                  Some (ops', params') ->
                tinv ds pre reqs (ops' ++ params') ops' params' []).
      { intros Hraw E'. refine (IH _ _ _ _ _ E'). split; [|split; [|split; [|split]]].
        - intros w. rewrite in_app_iff. simpl. rewrite (I1 w). intuition.
        - intros w Hw. destruct (I2 w Hw) as (op & Hop & Hp & Hi).
          exists op. split; [exact Hop|]. split; [exact Hp|]. intros i Hii. apply Move, Hi, Hii.
        - intros w Hw. apply in_app_or in Hw as [Hw|[<-|[]]]; [apply I3, Hw | exact Hraw].
        - intros r Hr. apply Move, I4, Hr.
        - intros w Hw. apply I5, Back, Hw. }
      destruct (map_get ds v) as [op|] eqn:Hop; [destruct (mem v pre) eqn:Hpre|].
      * exact (AsParam (or_intror eq_refl) E).
      * refine (IH _ _ _ _ _ E). split; [|split; [|split; [|split]]].
        -- intros w. rewrite in_app_iff. simpl. rewrite (I1 w). intuition.
        -- intros w Hw. apply in_app_or in Hw as [Hw|[<-|[]]].
           ++ destruct (I2 w Hw) as (op' & Hop' & Hp' & Hi).
              exists op'. split; [exact Hop'|]. split; [exact Hp'|]. intros i Hii.
              destruct (Move i (Hi i Hii)) as [H|H]; [left; exact H|].
              right. apply in_or_app. right. exact H.
           ++ exists op. split; [exact Hop|]. split; [exact Hpre|]. intros i Hii.
              right. apply in_or_app. left. apply in_rev in Hii. exact Hii.
        -- exact I3.
        -- intros r Hr. destruct (Move r (I4 r Hr)) as [H|H]; [left; exact H|].
           right. apply in_or_app. right. exact H.
        -- intros w [Hw|Hw].
           ++ apply I5, Back. left. exact Hw.
           ++ apply in_app_or in Hw as [Hw|Hw].
              ** destruct Hreach as (r & Hr & Hrv). exists r. split; [exact Hr|].
                 apply in_rev in Hw. exact (pr_step ds pre r v op w Hrv Hop Hpre Hw).
              ** apply I5. right. right. exact Hw.
      * exact (AsParam (or_introl eq_refl) E).
Qed.

(** [traverse] returns a closed plan: every operation is registered, not
    precomputed, and has each of its inputs among the operations or the
    parameters; every parameter is unregistered or precomputed; every
    requested name is an operation or a parameter; and every operation and
    parameter is met from a requested name through registered, not
    precomputed, operations (the subtree below a precomputed name is not
    explored). *)
Theorem traverse_plan_closed ds reqs pre operations params :
  traverse ds reqs pre = Some (operations, params) ->
  (forall v, In v operations -> exists op, map_get ds v = Some op /\ ~ In v pre /\
     forall i, In i (inputs op) -> In i operations \/ In i params) /\
  (forall p, In p params -> map_get ds p = None \/ In p pre) /\
  (forall r, In r reqs -> In r operations \/ In r params) /\
  (forall v, In v operations \/ In v params ->
     exists r, In r reqs /\ plan_reaches ds pre r v).
Proof.
  unfold traverse. destruct (traverse_loop _ _ _ _ _ _ _) as [[ops ps]|] eqn:E; [|discriminate].
  intros H. injection H as <- <-.
  assert (Hinit : tinv ds pre reqs [] [] [] (rev reqs)).
  { split; [|split; [|split; [|split]]].
    - intros v. simpl. tauto.
    - intros v [].
    - intros p [].
    - intros r Hr. right. apply in_rev in Hr. exact Hr.
    - intros v [[]|Hv]. apply in_rev in Hv. exists v. split; [exact Hv | apply pr_refl]. }
  destruct (traverse_loop_tinv _ _ _ _ _ _ _ _ _ _ Hinit E) as (I1 & I2 & I3 & I4 & I5).
  split; [|split; [|split]].
  - intros v Hv. destruct (I2 v Hv) as (op & Hop & Hp & Hi).
    exists op. split; [exact Hop|]. split; [apply mem_false, Hp|].
    intros i Hii. rewrite In_sort. destruct (Hi i Hii) as [H|[]]. apply in_app_or, H.
  - intros p Hp. rewrite In_sort in Hp. destruct (I3 p Hp) as [H|H]; [left; exact H|].
    right. apply mem_In, H.
  - intros r Hr. rewrite In_sort. destruct (I4 r Hr) as [H|[]]. apply in_app_or, H.
  - intros v Hv. rewrite In_sort in Hv. apply I5. left. apply in_or_app, Hv.
Qed.

Lemma traverse_plan_closed_witness :
  traverse (deps ex_compiler) ["addOne"] [] = Some (["addOne"; "double"], ["x"]) /\
  In "x" ["x"] /\ map_get (deps ex_compiler) "x" = None.
Proof.
  split; [reflexivity|]. split; [left; reflexivity|].
  destruct (proj1 (proj2 (traverse_plan_closed (deps ex_compiler) ["addOne"] []
              ["addOne"; "double"] ["x"] eq_refl)) "x" (or_introl eq_refl)) as [H|[]].
  exact H.
Defined.

Lemma traverse_loop_nodup_params fuel ds pre visited operations params stack ops' params' :
  NoDup params -> (forall v, In v params -> In v visited) ->
  traverse_loop fuel ds pre visited operations params stack = Some (ops', params') ->
  NoDup params'.
Proof.
  revert visited operations params stack.
  induction fuel as [|fuel IH]; intros visited operations params stack H1 H2 E.
  - destruct stack; simpl in E; [injection E as _ <-; exact H1 | discriminate].
  - destruct stack as [|v stack]; simpl in E; [injection E as _ <-; exact H1|].
    destruct (mem v visited) eqn:Hv; [exact (IH _ _ _ _ H1 H2 E)|].
    assert (Hnd : NoDup (params ++ [v])).
    { apply Permutation_NoDup with (v :: params); [apply Permutation_cons_append|].
      constructor; [|exact H1]. intros Hin. apply H2, mem_In in Hin. congruence. }
    assert (Hsub : forall w, In w (params ++ [v]) -> In w (v :: visited)).
    { intros w Hw. apply in_app_or in Hw as [Hw|[<-|[]]]; [right; auto | left; reflexivity]. }
    destruct (map_get ds v) as [op|]; [destruct (mem v pre)|].
    + exact (IH _ _ _ _ Hnd Hsub E).
    + refine (IH _ _ _ _ H1 _ E). intros w Hw. right. auto.
    + exact (IH _ _ _ _ Hnd Hsub E).
Qed.

(** [traverse] lists no name twice: the operations have no repetition,
    nor have the parameters; no name is both; no precomputed name is an
    operation; and the parameters come out sorted. *)
Theorem traverse_no_repeats ds reqs pre operations params :
  traverse ds reqs pre = Some (operations, params) ->
  NoDup operations /\ NoDup params /\ (forall v, In v operations -> ~ In v params) /\
  (forall v, In v operations -> ~ In v pre) /\ sorted params = true.
Proof.
  intros Ht. destruct (traverse_disjoint _ _ _ _ _ Ht) as [Hpre Hdis].
  unfold traverse in Ht.
  destruct (traverse_loop _ _ _ _ _ _ _) as [[ops ps]|] eqn:E; [|discriminate].
  injection Ht as <- <-.
  destruct (traverse_loop_nodup _ _ _ _ _ _ _ _ _ (NoDup_nil _)
              (fun v (H : In v []) => match H with end)
              (fun v (H : In v []) => match H with end) E) as [Hnd _].
  split; [exact Hnd|]. split.
  - apply Permutation_NoDup with ps; [apply Permutation_sym, sort_perm|].
    exact (traverse_loop_nodup_params _ _ _ _ _ _ _ _ _ (NoDup_nil _)
             (fun v (H : In v []) => match H with end) E).
  - split; [exact Hdis|]. split; [intros v Hv; apply mem_false, Hpre, Hv | apply sort_sorted].
Qed.

Lemma traverse_no_repeats_witness :
  traverse (deps ex_compiler) ["addOne"; "double"] ["x"] = Some (["double"; "addOne"], ["x"]) /\
  NoDup ["double"; "addOne"].
Proof.
  split; [reflexivity|].
  exact (proj1 (traverse_no_repeats (deps ex_compiler) ["addOne"; "double"] ["x"] _ _ eq_refl)).
Defined.

(** ** Requests as multisets *)

(** [getParams], [compile] and [getCalculator] depend on the order of the
    requested names and of the precomputed names not at all: they sort both
    before building the cache keys and the plan. *)
Theorem request_order_irrelevant s r r' p p' :
  Permutation r r' -> Permutation p p' ->
  getParams s r p = getParams s r' p' /\ compile s r p = compile s r' p' /\
  getCalculator s r p = getCalculator s r' p'.
Proof.
  intros Hr Hp.
  assert (Gp : forall a a', Permutation a a' -> getParams s a p = getParams s a' p').
  { intros a a' Ha. unfold getParams. rewrite (sort_perm_eq _ _ Ha), (sort_perm_eq _ _ Hp).
    reflexivity. }
  assert (Gc : forall t a a', Permutation a a' -> compile t a p = compile t a' p').
  { intros t a a' Ha. unfold compile. rewrite (sort_perm_eq _ _ Ha), (sort_perm_eq _ _ Hp).
    reflexivity. }
  split; [exact (Gp _ _ Hr)|]. split; [exact (Gc _ _ _ Hr)|].
  unfold getCalculator. cbv zeta. rewrite (sort_perm_eq _ _ Hr).
  rewrite (Gp _ _ (Permutation_refl (sort r'))), (Gc s _ _ (Permutation_refl (sort r'))).
  destruct (map_get (fn_cache s) (join NUL (sort r'))) as [pc|]; [|reflexivity].
  destruct (getParams s (sort r') p') as [[s1 ri]| |]; [|reflexivity|reflexivity].
  rewrite (Gc s1 _ _ (Permutation_refl (sort r'))). reflexivity.
Qed.

Lemma request_order_irrelevant_witness :
  getCalculator ex_compiler ["double"; "addOne"] ["x"; "double"] =
  getCalculator ex_compiler ["addOne"; "double"] ["double"; "x"].
Proof.
  exact (proj2 (proj2 (request_order_irrelevant ex_compiler _ _ _ _
           (perm_swap "addOne" "double" []) (perm_swap "double" "x" [])))).
Defined.

(** ** [loadSource] and the calculator cache *)

(** [loadSource] stores the new calculator in [fn_cache] under the key of
    the sorted [returns] and, inside, the key of the sorted [params],
    replacing what was there; every other entry of the cache, the registry
    and the [getParams] cache are unchanged; the calculator checks the
    sorted [params], and the record comes back with [params] and [returns]
    sorted. *)
Theorem loadSource_caches s source s' f sf :
  loadSource s source = Ok (s', f, sf) ->
  let rkey := join NUL (sort (sf_returns source)) in
  let pkey := join NUL (sort (sf_params source)) in
  (exists pc, map_get (fn_cache s') rkey = Some pc /\ map_get pc pkey = Some f) /\
  (forall rk, rk <> rkey -> map_get (fn_cache s') rk = map_get (fn_cache s) rk) /\
  (forall pc0 pk, map_get (fn_cache s) rkey = Some pc0 -> pk <> pkey ->
     exists pc, map_get (fn_cache s') rkey = Some pc /\ map_get pc pk = map_get pc0 pk) /\
  deps s' = deps s /\ req_cache s' = req_cache s /\
  ex_params f = sort (sf_params source) /\
  sf_params sf = sort (sf_params source) /\ sf_returns sf = sort (sf_returns source).
Proof.
  unfold loadSource. destruct (link _ _ _) as [formulas| |]; try discriminate.
  intros H. injection H as <- <- <-. cbv zeta. cbn [fn_cache deps req_cache ex_params
    sf_params sf_returns].
  split; [|split; [|split; [|split; [reflexivity|split; [reflexivity|split; [reflexivity|
    split; reflexivity]]]]]].
  - eexists. split; [apply map_get_set_same | apply map_get_set_same].
  - intros rk Hne. rewrite map_get_set. destruct (String.eqb_spec rk (join NUL (sort (sf_returns source))));
      [contradiction | reflexivity].
  - intros pc0 pk Hpc Hne. rewrite Hpc. eexists. split; [apply map_get_set_same|].
    rewrite map_get_set. destruct (String.eqb_spec pk (join NUL (sort (sf_params source))));
      [contradiction | reflexivity].
Qed.

Lemma loadSource_caches_witness :
  exists s' f sf, loadSource ex_compiler double_record = Ok (s', f, sf) /\
    exists pc, map_get (fn_cache s') "double" = Some pc /\ map_get pc "x" = Some f.
Proof.
  do 3 eexists. split; [reflexivity|].
  exact (proj1 (loadSource_caches ex_compiler double_record _ _ _ eq_refl)).
Defined.

(** Loading the record that [compile] returned (as after persisting it)
    gives back the same record and a new function object that behaves as
    the compiled one: same parameters, formulas, body and kind, so the same
    outcome and formula calls on every argument object. *)
Theorem compile_reload_round_trip s reqs pre s1 f sf :
  compile s reqs pre = Ok (s1, f, sf) ->
  exists s2 f2, loadSource s1 sf = Ok (s2, f2, sf) /\
    ex_ref f2 <> ex_ref f /\ ex_params f2 = ex_params f /\
    ex_formulas f2 = ex_formulas f /\ ex_isAsync f2 = ex_isAsync f /\
    ex_body f2 = ex_body f /\ deps s2 = deps s1 /\
    (forall args, invoke (deps s2) f2 args = invoke (deps s1) f args).
Proof.
  unfold compile. cbv zeta.
  destruct (linearize (deps s) (sort reqs) (sort pre)) as [l|]; [|discriminate].
  unfold loadSource at 1. cbn [deps set_req_cache].
  destruct (link (deps s) (sf_formulas (synthesize (sort reqs) l)) []) as [formulas| |] eqn:HL;
    try discriminate.
  intros H. injection H as <- <- <-.
  unfold loadSource. cbn [deps sf_formulas sf_params sf_returns sf_isAsync sf_body].
  rewrite HL, !sort_idem.
  do 2 eexists. split; [reflexivity|]. cbn.
  split; [lia|]. repeat split; reflexivity.
Qed.

Lemma compile_reload_round_trip_witness :
  exists s1 f sf s2 f2, compile ex_compiler ["addOne"] [] = Ok (s1, f, sf) /\
    loadSource s1 sf = Ok (s2, f2, sf) /\ ex_ref f2 <> ex_ref f.
Proof.
  do 3 eexists. destruct (compile_reload_round_trip ex_compiler ["addOne"] [] _ _ _ eq_refl)
    as (s2 & f2 & H1 & H2 & _).
  exists s2, f2. split; [reflexivity|]. split; [exact H1 | exact H2].
Defined.

(** ** What [interpret] returns *)












(** ** The synchronous calculator computes the formulas *)

(** *** Scheduling: each operation after its inputs *)

Lemma ordered_mono c c' L :
  (forall x, In x c -> In x c') -> ordered c L -> ordered c' L.
Proof.
  revert c c'. induction L as [|op L IH]; intros c c' Hc HL; [exact I|].
  destruct HL as [Hi HL]. split; [intros i Hii; apply Hc, Hi, Hii|].
  refine (IH _ _ _ HL). intros x [<-|Hx]; [left; reflexivity | right; apply Hc, Hx].
Qed.

Lemma ordered_app c0 c L1 L2 :
  ordered c0 L1 -> ordered c L2 ->
  (forall x, In x c -> In x c0 \/ In x (map outputs L1)) -> ordered c0 (L1 ++ L2).
Proof.
  revert c0. induction L1 as [|op L1 IH]; intros c0 H1 H2 Hc; simpl.
  - refine (ordered_mono _ _ _ _ H2). intros x Hx. destruct (Hc x Hx) as [H|[]]. exact H.
  - destruct H1 as [Hi H1]. split; [exact Hi|]. refine (IH _ H1 H2 _).
    intros x Hx. destruct (Hc x Hx) as [H|[H|H]]; [left; right; exact H | left; left; exact H |].
    right. exact H.
Qed.

Lemma node_ok_mono ds c c' nd :
  (forall x, In x c -> In x c') -> node_ok ds c nd -> node_ok ds c' nd.
Proof.
  intros Hc (Ha & op & Hop & Hi). split; [exact Ha|]. exists op. split; [exact Hop|].
  intros i Hii. destruct (Hi i Hii) as [H|H]; [left; apply Hc, H | right; exact H].
Qed.

Lemma lin_pass_sync ds c nodes c' a s n :
  deps_wf ds -> (forall nd, In nd nodes -> node_ok ds c nd) ->
  lin_pass ds c nodes = (c', a, s, n) ->
  a = [] /\ ordered c s /\ (forall x, In x c' -> In x c \/ In x (map outputs s)) /\
  (forall x, In x c -> In x c') /\ (forall nd, In nd n -> node_ok ds c' nd) /\
  (forall op, In op s -> map_get ds (outputs op) = Some op).
Proof.
  intros Hwf. revert c c' a s n.
  induction nodes as [|nd rest IH]; intros c c' a s n Hok E; simpl in E.
  - injection E as <- <- <- <-. repeat split; auto; intros; contradiction.
  - destruct (Hok nd (or_introl eq_refl)) as (Ha & op0 & Hop & Hi).
    destruct (filter (fun v => negb (mem v c)) (nd_inputs nd)) as [|x xs] eqn:Ef.
    + destruct (lin_pass ds (nd_outputs nd :: c) rest) as [[[c1 a1] s1] n1] eqn:Er.
      assert (Hok' : forall nd', In nd' rest -> node_ok ds (nd_outputs nd :: c) nd').
      { intros nd' H. refine (node_ok_mono _ c _ _ _ (Hok nd' (or_intror H))).
        intros y Hy. right. exact Hy. }
      destruct (IH _ _ _ _ _ Hok' Er) as (Ha1 & Ho1 & Hc1 & Hc1' & Hn1 & Hr1).
      rewrite Hop, Ha in E. injection E as <- <- <- <-.
      pose proof (Hwf _ _ Hop) as Hout.
      split; [exact Ha1|]. split; [split|split; [|split; [|split]]].
      * intros i Hii. destruct (Hi i Hii) as [H|H]; [exact H|].
        destruct (mem i c) eqn:Hm; [apply mem_In, Hm|].
        assert (Hf : In i (filter (fun v => negb (mem v c)) (nd_inputs nd)))
          by (apply filter_In; rewrite Hm; auto).
        rewrite Ef in Hf. contradiction.
      * rewrite Hout. exact Ho1.
      * intros y Hy. destruct (Hc1 y Hy) as [[<-|H]|H].
        -- right. left. exact Hout.
        -- left. exact H.
        -- right. right. exact H.
      * intros y Hy. apply Hc1'. right. exact Hy.
      * exact Hn1.
      * intros op [<-|H]; [rewrite Hout; exact Hop | apply Hr1, H].
    + destruct (lin_pass ds c rest) as [[[c1 a1] s1] n1] eqn:Er.
      destruct (IH _ _ _ _ _ (fun nd' H => Hok nd' (or_intror H)) Er)
        as (Ha1 & Ho1 & Hc1 & Hc1' & Hn1 & Hr1).
      injection E as <- <- <- <-.
      repeat (split; [assumption|]). split; [|exact Hr1].
      intros nd' [<-|H]; [|apply Hn1, H].
      split; [exact Ha|]. exists op0. split; [exact Hop|]. intros i Hii.
      destruct (Hi i Hii) as [H|H]; [left; apply Hc1', H|].
      destruct (mem i c) eqn:Hm; [left; apply Hc1', mem_In, Hm|].
      right. cbn [nd_inputs]. rewrite <- Ef. apply filter_In. rewrite Hm. auto.
Qed.

Lemma flat_s_app b1 b2 : flat_s (b1 ++ b2) = flat_s b1 ++ flat_s b2.
Proof. unfold flat_s. apply flat_map_app. Qed.

Lemma lin_loop_sync fuel ds c0 c nodes blocks blocks' :
  deps_wf ds -> (forall nd, In nd nodes -> node_ok ds c nd) ->
  ordered c0 (flat_s blocks) ->
  (forall x, In x c -> In x c0 \/ In x (map outputs (flat_s blocks))) ->
  (forall b, In b blocks -> fst b = []) ->
  (forall op, In op (flat_s blocks) -> map_get ds (outputs op) = Some op) ->
  lin_loop fuel ds c nodes blocks = Some blocks' ->
  ordered c0 (flat_s blocks') /\ (forall b, In b blocks' -> fst b = []) /\
  (forall op, In op (flat_s blocks') -> map_get ds (outputs op) = Some op).
Proof.
  intros Hwf. revert c nodes blocks.
  induction fuel as [|fuel IH]; intros c nodes blocks Hok Hord Hc Hb Hr E.
  - destruct nodes; simpl in E; [injection E as <-; auto | discriminate].
  - destruct nodes as [|nd rest]; cbn [lin_loop] in E; [injection E as <-; auto|].
    destruct (lin_pass ds c (nd :: rest)) as [[[c1 a] s] n] eqn:Ep.
    destruct (lin_pass_sync _ _ _ _ _ _ _ Hwf Hok Ep)
      as (-> & Ho & Hc1 & _ & Hn & Hrs).
    assert (Hflat : flat_s (blocks ++ [([], s)]) = flat_s blocks ++ s).
    { rewrite flat_s_app. cbn. rewrite app_nil_r. reflexivity. }
    refine (IH _ _ _ Hn _ _ _ _ E); rewrite ?Hflat.
    + refine (ordered_app _ _ _ _ Hord Ho Hc).
    + intros x Hx. rewrite map_app, in_app_iff.
      destruct (Hc1 x Hx) as [H|H]; [destruct (Hc x H)|]; tauto.
    + intros b Hb'. apply in_app_or in Hb' as [H|[<-|[]]]; [apply Hb, H | reflexivity].
    + intros op Hop. apply in_app_or in Hop as [H|H]; [apply Hr, H | apply Hrs, H].
Qed.

Lemma sched_outputs_sync blocks :
  (forall b, In b blocks -> fst b = []) -> sched_outputs blocks = map outputs (flat_s blocks).
Proof.
  induction blocks as [|[a s] bs IH]; intros Hb; [reflexivity|].
  unfold sched_outputs, flat_s in *. cbn [flat_map].
  pose proof (Hb (a, s) (or_introl eq_refl)) as Ha. cbn [fst] in Ha. subst a.
  rewrite map_app, IH; [reflexivity|].
  intros b H. apply Hb. right. exact H.
Qed.

(** The schedule of a registry of synchronous operations has no
    asynchronous wave, and runs every operation after its inputs. *)
Lemma linearize_sync ds reqs pre l :
  deps_wf ds -> (forall k op, map_get ds k = Some op -> async op = false) ->
  linearize ds reqs pre = Some l ->
  exists ops, traverse ds reqs pre = Some (ops, l_params l) /\
    (forall b, In b (l_blocks l) -> fst b = []) /\
    ordered (pre ++ l_params l) (flat_s (l_blocks l)) /\
    (forall op, In op (flat_s (l_blocks l)) -> map_get ds (outputs op) = Some op) /\
    Permutation ops (map outputs (flat_s (l_blocks l))) /\
    NoDup (map outputs (flat_s (l_blocks l))).
Proof.
  intros Hwf Hsync Hl.
  destruct (linearize_schedules_each_once _ _ _ _ Hwf Hl) as (ops & Ht & P & Hnd).
  exists ops. split; [exact Ht|].
  revert Hl. unfold linearize, linearize_fuel. rewrite Ht.
  destruct (lin_loop _ _ _ _ _) as [blocks|] eqn:El; [|discriminate].
  intros H. injection H as Hl'. rewrite <- Hl'. rewrite <- Hl' in P, Hnd.
  cbn [l_blocks l_params] in *.
  assert (Hs : ordered (pre ++ l_params l) (flat_s blocks) /\
                (forall b, In b blocks -> fst b = []) /\
                (forall op, In op (flat_s blocks) -> map_get ds (outputs op) = Some op)).
  { refine (lin_loop_sync _ _ (pre ++ l_params l) (pre ++ l_params l) (lin_nodes ds ops) []
              blocks Hwf _ _ _ _ _ El).
  - intros nd Hnd'. unfold lin_nodes in Hnd'. apply in_flat_map in Hnd' as (v & _ & Hv).
    destruct (map_get ds v) as [op|] eqn:Hop; [|destruct Hv].
    destruct Hv as [<-|[]]. split; [apply (Hsync _ _ Hop)|].
    exists op. cbn [nd_outputs nd_inputs mk_node]. rewrite (Hwf _ _ Hop).
    split; [exact Hop|]. intros i Hi. right. exact Hi.
  - exact I.
  - intros x Hx. left. exact Hx.
  - intros b [].
  - intros op []. }
  destruct Hs as (Ho & Hb & Hr).
  rewrite <- (sched_outputs_sync _ Hb). auto 7.
Qed.

(** *** The reference values *)

Lemma opt_all_mono (g g' : name -> option val) ns vs :
  (forall n v, g n = Some v -> g' n = Some v) -> opt_all g ns = Some vs -> opt_all g' ns = Some vs.
Proof.
  intros Hg. revert vs. induction ns as [|n ns IH]; intros vs H; [exact H|]. simpl in *.
  destruct (g n) as [v|] eqn:E1; [|discriminate].
  destruct (opt_all g ns) as [vs'|] eqn:E2; [|discriminate].
  rewrite (Hg _ _ E1), (IH _ eq_refl). exact H.
Qed.

Lemma denote_unfold fuel ds pre args n :
  denote (S fuel) ds pre args n =
    match map_get ds n with
    | None => Some (arg_of args n)
    | Some op =>
        if mem n pre then Some (arg_of args n)
        else match opt_all (denote fuel ds pre args) (inputs op) with
             | Some vs => Some (fn op vs)
             | None => None
             end
    end.
Proof. reflexivity. Qed.

Lemma denote_S fuel ds pre args n v :
  denote fuel ds pre args n = Some v -> denote (S fuel) ds pre args n = Some v.
Proof.
  revert n v. induction fuel as [|fuel IH]; intros n v H; [discriminate|].
  rewrite denote_unfold in H |- *.
  destruct (map_get ds n) as [op|]; [|exact H].
  destruct (mem n pre); [exact H|].
  destruct (opt_all (denote fuel ds pre args) (inputs op)) as [vs|] eqn:E; [|discriminate].
  rewrite (opt_all_mono _ _ _ _ IH E). exact H.
Qed.

Lemma denote_mono fuel fuel' ds pre args n v :
  fuel <= fuel' -> denote fuel ds pre args n = Some v -> denote fuel' ds pre args n = Some v.
Proof. induction 1; [auto | intros Hd; apply denote_S; auto]. Qed.

Lemma denote_pre_ext fuel ds p1 p2 args n :
  (forall x, mem x p1 = mem x p2) -> denote fuel ds p1 args n = denote fuel ds p2 args n.
Proof.
  intros Hp. revert n. induction fuel as [|fuel IH]; intros n; [reflexivity|]. simpl.
  rewrite Hp. destruct (map_get ds n) as [op|]; [|reflexivity].
  destruct (mem n p2); [reflexivity|].
  replace (opt_all (denote fuel ds p1 args) (inputs op))
    with (opt_all (denote fuel ds p2 args) (inputs op)); [reflexivity|].
  induction (inputs op) as [|i is IHi]; simpl; [reflexivity|]. rewrite IH, IHi. reflexivity.
Qed.

Lemma mem_sort x l : mem x (sort l) = mem x l.
Proof.
  destruct (mem x l) eqn:E.
  - apply mem_In. apply In_sort. apply mem_In, E.
  - apply mem_false. rewrite In_sort. apply mem_false, E.
Qed.

(** *** Identifiers *)

Lemma ident_eqb_eq x y : ident_eqb x y = true <-> x = y.
Proof.
  destruct x, y; simpl; split; intros H; try discriminate; try reflexivity;
    try (apply Nat.eqb_eq in H; subst; reflexivity);
    try (injection H as ->; apply Nat.eqb_refl).
Qed.

Lemma map_get_In {A} (m : JSMap A) k v : map_get m k = Some v -> In (k, v) m.
Proof.
  induction m as [|[k' v'] m IH]; simpl; [discriminate|].
  destruct (String.eqb k k') eqn:E; intros H; [|right; auto].
  apply String.eqb_eq in E. injection H as ->. subst. left. reflexivity.
Qed.

Lemma In_map_get {A} (m : JSMap A) k v : NoDup (map fst m) -> In (k, v) m -> map_get m k = Some v.
Proof.
  induction m as [|[k' v'] m IH]; simpl; intros Hnd H; [destruct H|].
  inversion Hnd as [|? ? Hn Hnd']; subst.
  destruct H as [H|H].
  - injection H as -> ->. rewrite String.eqb_refl. reflexivity.
  - destruct (String.eqb k k') eqn:E; [|auto].
    apply String.eqb_eq in E. subst. exfalso. apply Hn. apply in_map_iff. exists (k', v). auto.
Qed.

Lemma map_set_keys {A} (m : JSMap A) k v k0 :
  In k0 (map fst (map_set m k v)) -> k0 = k \/ In k0 (map fst m).
Proof.
  induction m as [|[k' v'] m IH]; simpl; [intros [<-|[]]; left; reflexivity|].
  destruct (String.eqb k k'); simpl; [tauto|]. intros [H|H]; [tauto|]. destruct (IH H); tauto.
Qed.

Lemma map_set_nodup {A} (m : JSMap A) k v : NoDup (map fst m) -> NoDup (map fst (map_set m k v)).
Proof.
  induction m as [|[k' v'] m IH]; simpl; intros Hnd; [constructor; [intros []|constructor]|].
  inversion Hnd as [|? ? Hn Hnd']; subst.
  destruct (String.eqb k k') eqn:E; simpl; [exact Hnd|].
  constructor; [|exact (IH Hnd')].
  intros H. destruct (map_set_keys _ _ _ _ H) as [->|H']; [|contradiction].
  rewrite String.eqb_refl in E. discriminate.
Qed.

Lemma ids_ok_assign m lo c k :
  ids_ok m lo c -> lo <= c -> ids_ok (map_set m k (IdV c)) lo (S c).
Proof.
  intros [Hr Hi] Hlo. split.
  - intros k' x. rewrite map_get_set. destruct (String.eqb k' k).
    + intros H. injection H as <-. exists c. split; [reflexivity | lia].
    + intros H. destruct (Hr _ _ H) as (j & -> & Hj). exists j. split; [reflexivity | lia].
  - intros k1 k2 x. rewrite !map_get_set.
    destruct (String.eqb k1 k) eqn:E1, (String.eqb k2 k) eqn:E2.
    + apply String.eqb_eq in E1, E2. congruence.
    + intros H1 H2. injection H1 as <-. destruct (Hr _ _ H2) as (j & Hj & Hlt).
      injection Hj as ->. lia.
    + intros H1 H2. injection H2 as <-. destruct (Hr _ _ H1) as (j & Hj & Hlt).
      injection Hj as ->. lia.
    + apply Hi.
Qed.

Lemma assign_fold {X} (key : X -> name) l m c m' c' lo :
  fold_left (fun st x => assign_id st (key x)) l (m, c) = (m', c') ->
  ids_ok m lo c -> lo <= c -> NoDup (map fst m) ->
  ids_ok m' lo c' /\ c <= c' /\ NoDup (map fst m') /\
  (forall k, map_get m k <> None -> map_get m' k <> None) /\
  (forall x, In x l -> map_get m' (key x) <> None) /\
  (forall k, map_get m' k <> None -> map_get m k <> None \/ In k (map key l)).
Proof.
  revert m c. induction l as [|x l IH]; intros m c E Hok Hlo Hnd; simpl in E.
  - injection E as <- <-. split; [exact Hok|]. split; [lia|]. split; [exact Hnd|].
    split; [auto|]. split; [intros _ []|]. intros k Hk. left. exact Hk.
  - destruct (IH _ _ E (ids_ok_assign _ _ _ _ Hok Hlo) ltac:(lia) (map_set_nodup _ _ _ Hnd))
      as (H1 & H2 & H3 & H4 & H5 & H6).
    split; [exact H1|]. split; [lia|]. split; [exact H3|]. split; [|split].
    + intros k Hk. apply H4. rewrite map_get_set. destruct (String.eqb k (key x)); congruence.
    + intros y [<-|Hy]; [|apply H5, Hy]. apply H4. rewrite map_get_set_same. discriminate.
    + intros k Hk. destruct (H6 k Hk) as [H|H]; [|right; right; exact H].
      rewrite map_get_set in H. destruct (String.eqb k (key x)) eqn:E'.
      * right. left. symmetry. apply String.eqb_eq, E'.
      * left. exact H.
Qed.

(** With no asynchronous wave, [assign_vids] numbers the synchronous
    operations in order and leaves [isAsync] false. *)
Lemma assign_vids_sync count blocks :
  (forall b, In b blocks -> fst b = []) ->
  assign_vids count blocks =
    let '(m, c) := fold_left (fun st op => assign_id st (outputs op)) (flat_s blocks) ([], count)
    in (m, c, false).
Proof.
  unfold assign_vids. generalize (@nil (string * ident)) as m0. revert count.
  induction blocks as [|[a sb] bs IH]; intros count m0 Hb; [reflexivity|].
  pose proof (Hb (a, sb) (or_introl eq_refl)) as Ha. cbn [fst] in Ha. subst a.
  cbn [fold_left flat_s flat_map snd]. rewrite fold_left_app.
  destruct (fold_left (fun st op => assign_id st (outputs op)) sb (@pair (JSMap ident) nat m0 count))
    as [m2 c2] eqn:E.
  replace (fold_left (fun st op => assign_id st (outputs op)) sb (m0, count)) with (m2, c2)
    by (symmetry; exact E).
  apply IH. intros b H. apply Hb. right. exact H.
Qed.

Lemma gen_calcs_sync pids vids blocks :
  gen_calcs pids vids false blocks = sync_block pids vids (flat_s blocks).
Proof.
  unfold gen_calcs, flat_s, sync_block.
  induction blocks as [|[a sb] bs IH]; [reflexivity|].
  cbn [flat_map]. rewrite IH, map_app. reflexivity.
Qed.

Lemma lookup_id_In {A} (env : list (ident * A)) x g : lookup_id env x = Some g -> In (x, g) env.
Proof.
  induction env as [|[y v] env IH]; simpl; [discriminate|].
  destruct (ident_eqb x y) eqn:E; intros H; [|right; auto].
  apply ident_eqb_eq in E. injection H as ->. subst. left. reflexivity.
Qed.

Lemma lookup_id_some {A} (env : list (ident * A)) x :
  In x (map fst env) -> exists g, lookup_id env x = Some g.
Proof.
  induction env as [|[y v] env IH]; simpl; [intros []|].
  destruct (ident_eqb x y) eqn:E; [eauto|]. intros [<-|H]; [|auto].
  assert (ident_eqb y y = true) by (apply ident_eqb_eq; reflexivity). congruence.
Qed.

Lemma link_ok ds req acc :
  (forall k x, In (k, x) req -> map_get ds k <> None) ->
  exists fs, link ds req acc = Ok fs /\
    (forall y g, In (y, g) fs -> In (y, g) acc \/
       exists k op, In (k, y) req /\ map_get ds k = Some op /\ g = fn op) /\
    (forall y g, In (y, g) acc -> In (y, g) fs) /\
    (forall k x, In (k, x) req -> In x (map fst fs)).
Proof.
  revert acc. induction req as [|[k x] req IH]; intros acc Hreq; simpl.
  - exists acc. split; [reflexivity|]. split; [auto|]. split; [auto|]. intros k x [].
  - destruct (map_get ds k) as [op|] eqn:Hop;
      [|exfalso; apply (Hreq k x (or_introl eq_refl)), Hop].
    destruct (IH ((x, fn op) :: acc)) as (fs & E & H1 & H2 & H3);
      [intros k' x' H; apply (Hreq k' x'), or_intror, H|].
    exists fs. split; [exact E|]. split; [|split].
    + intros y g Hy. destruct (H1 y g Hy) as [[H|H]|(k' & op' & Hk & Ho & ->)].
      * injection H as <- <-. right. exists k, op. auto.
      * left. exact H.
      * right. exists k', op'. auto.
    + intros y g H. apply H2. right. exact H.
    + intros k' x' [H|H]; [|apply (H3 k'), H].
      injection H as -> ->. apply in_map_iff. exists (x', fn op). split; [reflexivity|].
      apply H2. left. reflexivity.
Qed.

(** *** The plan a calculator is generated from *)

Lemma traverse_closed ds reqs pre operations params :
  traverse ds reqs pre = Some (operations, params) ->
  (forall v, In v operations -> exists op, map_get ds v = Some op /\ mem v pre = false /\
     forall i, In i (inputs op) -> In i operations \/ In i params) /\
  (forall p, In p params -> map_get ds p = None \/ mem p pre = true) /\
  (forall r, In r reqs -> In r operations \/ In r params).
Proof.
  unfold traverse. destruct (traverse_loop _ _ _ _ _ _ _) as [[ops ps]|] eqn:E; [|discriminate].
  intros H. injection H as <- <-.
  assert (Hinit : tinv ds pre reqs [] [] [] (rev reqs)).
  { split; [|split; [|split; [|split]]].
    - intros v. simpl. tauto.
    - intros v [].
    - intros p [].
    - intros r Hr. right. apply in_rev in Hr. exact Hr.
    - intros v [[]|Hv]. apply in_rev in Hv. exists v. split; [exact Hv | apply pr_refl]. }
  destruct (traverse_loop_tinv _ _ _ _ _ _ _ _ _ _ Hinit E) as (I1 & I2 & I3 & I4 & _).
  split; [|split].
  - intros v Hv. destruct (I2 v Hv) as (op & Hop & Hp & Hi).
    exists op. split; [exact Hop|]. split; [exact Hp|].
    intros i Hii. rewrite In_sort. destruct (Hi i Hii) as [H|[]]. apply in_app_or, H.
  - intros p Hp. rewrite In_sort in Hp. exact (I3 p Hp).
  - intros r Hr. rewrite In_sort. destruct (I4 r Hr) as [H|[]]. apply in_app_or, H.
Qed.

(** *** Running the synchronous body *)

Section SyncRun.
Variables (ds : JSMap OpSpec) (pre : list name) (args : JSMap val) (ops params : list name)
  (pids vids : JSMap ident) (fs : ftable) (count : nat).

(** The plan: closed, and no name both an operation and a parameter. *)
Hypothesis Hops : forall v, In v ops -> exists op, map_get ds v = Some op /\ mem v pre = false /\
  forall i, In i (inputs op) -> In i ops \/ In i params.
Hypothesis Hparams : forall p, In p params -> map_get ds p = None \/ mem p pre = true.
Hypothesis Hdisj : forall v, In v ops -> ~ In v params.
(** [pids] numbers the parameters below [count], [vids] numbers
    operations from [count] on, each without sharing. *)
Hypothesis Hpids : ids_ok pids 0 count.
Hypothesis Hpkeys : NoDup (map fst pids).
Hypothesis Hpcover : forall p, In p params -> map_get pids p <> None.
Hypothesis Hvids : forall o x, map_get vids o = Some x -> In o ops /\ exists j, x = IdV j /\ count <= j.
Hypothesis Hvinj : forall o1 o2 x, map_get vids o1 = Some x -> map_get vids o2 = Some x -> o1 = o2.
(** [formulas] holds the formula of each operation under its identifier. *)
Hypothesis Hfs : forall o x, map_get vids o = Some x ->
  exists op, map_get ds o = Some op /\ lookup_id fs x = Some (fn op).

Lemma avail_args p :
  In p params -> avail ds pre args pids vids (rev (map (fun '(k, x) => (x, arg_of args k)) pids)) p.
Proof.
  intros Hp. destruct (map_get pids p) as [x|] eqn:Hx; [|exfalso; exact (Hpcover p Hp Hx)].
  assert (Hv : map_get vids p = None).
  { destruct (map_get vids p) as [y|] eqn:Hy; [|reflexivity].
    exfalso. apply (Hdisj p); [apply (Hvids _ _ Hy) | exact Hp]. }
  destruct (lookup_id_some (rev (map (fun '(k, x) => (x, arg_of args k)) pids)) x) as [w Hw].
  { rewrite map_rev, <- in_rev, map_map. apply in_map_iff.
    exists (p, x). split; [reflexivity | apply map_get_In, Hx]. }
  exists w. unfold ids_get. rewrite Hv. unfold id_of, read_id. rewrite Hx, Hw.
  split; [reflexivity|].
  apply lookup_id_In, in_rev, in_map_iff in Hw as ([k x'] & Heq & Hin).
  injection Heq as -> <-. apply (In_map_get _ _ _ Hpkeys) in Hin.
  rewrite (proj2 Hpids _ _ _ Hin Hx). exists 1. cbn [denote].
  destruct (Hparams p Hp) as [H|H]; rewrite H; [reflexivity|].
  destruct (map_get ds p); reflexivity.
Qed.

Lemma ids_get_other i o x : map_get vids o = Some x -> i <> o -> ids_get pids vids i <> x.
Proof.
  intros Ho Hne. unfold ids_get. destruct (map_get vids i) as [y|] eqn:Hy.
  - intros ->. exact (Hne (Hvinj _ _ _ Hy Ho)).
  - destruct (Hvids _ _ Ho) as (_ & j & -> & Hj). unfold id_of.
    destruct (map_get pids i) as [z|] eqn:Hz; [|discriminate].
    destruct (proj1 Hpids _ _ Hz) as (j' & -> & Hj'). intros H. injection H as ->. lia.
Qed.

Lemma avail_cons env i o x w :
  map_get vids o = Some x -> i <> o -> avail ds pre args pids vids env i ->
  avail ds pre args pids vids ((x, w) :: env) i.
Proof.
  intros Ho Hne (v & Hr & Hd). exists v. split; [|exact Hd].
  unfold read_id in *. cbn [lookup_id].
  destruct (ident_eqb (ids_get pids vids i) x) eqn:E; [|exact Hr].
  apply ident_eqb_eq in E. exfalso. exact (ids_get_other i o x Ho Hne E).
Qed.

Lemma read_inputs env ins :
  (forall i, In i ins -> avail ds pre args pids vids env i) ->
  exists vs, read_ids env (map (ids_get pids vids) ins) = Ok vs /\
    exists fuel, opt_all (denote fuel ds pre args) ins = Some vs.
Proof.
  induction ins as [|i ins IH]; intros Ha.
  - exists []. split; [reflexivity|]. exists 0. reflexivity.
  - destruct (Ha i (or_introl eq_refl)) as (v & Hr & f1 & Hd).
    destruct IH as (vs & Hrs & f2 & Hds); [intros j Hj; apply Ha; right; exact Hj|].
    exists (v :: vs). cbn [map read_ids]. rewrite Hr, Hrs. split; [reflexivity|].
    exists (Nat.max f1 f2). cbn [opt_all].
    rewrite (denote_mono f1 _ _ _ _ _ _ (Nat.le_max_l _ _) Hd).
    rewrite (opt_all_mono _ _ _ _ (fun n v' => denote_mono f2 _ _ _ _ _ _ (Nat.le_max_r _ _)) Hds).
    reflexivity.
Qed.

Lemma run_sync L seen done env tr :
  ordered seen L ->
  (forall x, In x seen -> In x pre \/ In x params \/ In x (map outputs done)) ->
  (forall i, In i params \/ In i (map outputs done) -> avail ds pre args pids vids env i) ->
  (forall op, In op L -> map_get ds (outputs op) = Some op /\ map_get vids (outputs op) <> None) ->
  exists env', exec_stmts fs env (sync_block pids vids L) tr =
                 (Ok env', tr ++ map (fun op => id_of vids (outputs op)) L) /\
    forall i, In i params \/ In i (map outputs (done ++ L)) -> avail ds pre args pids vids env' i.
Proof.
  revert seen done env tr.
  induction L as [|op L IH]; intros seen done env tr Hord Hseen Havail HL.
  - exists env. rewrite !app_nil_r. split; [reflexivity | exact Havail].
  - destruct Hord as [Hin Hord].
    destruct (HL op (or_introl eq_refl)) as [Hop Hv].
    destruct (map_get vids (outputs op)) as [x|] eqn:Hx; [|exfalso; apply Hv; reflexivity].
    destruct (Hvids _ _ Hx) as [Ho _].
    destruct (Hops _ Ho) as (op' & Hop' & Hpre & Hcl).
    rewrite Hop in Hop'. injection Hop' as <-.
    destruct (read_inputs env (inputs op)) as (vs & Hr & F & Hd).
    { intros i Hi. apply Havail. destruct (Hseen i (Hin i Hi)) as [H|H]; [|exact H].
      left. destruct (Hcl i Hi) as [Hio|Hip]; [|exact Hip].
      destruct (Hops _ Hio) as (_ & _ & Hm & _). apply mem_false in Hm. contradiction. }
    destruct (Hfs _ _ Hx) as (op' & Hop' & Hf). rewrite Hop in Hop'. injection Hop' as <-.
    assert (Hid : id_of vids (outputs op) = x) by (unfold id_of; rewrite Hx; reflexivity).
    destruct (IH (outputs op :: seen) (done ++ [op]) ((x, fn op vs) :: env) (tr ++ [x]))
      as (env' & Hex & Hav).
    + exact Hord.
    + intros y [<-|Hy]; [right; right; rewrite map_app; apply in_or_app; right; left; reflexivity|].
      destruct (Hseen y Hy) as [H|[H|H]]; [left; exact H | right; left; exact H|].
      right. right. rewrite map_app. apply in_or_app. left. exact H.
    + intros i Hi. destruct (String.eqb i (outputs op)) eqn:Ei.
      * apply String.eqb_eq in Ei. subst i. exists (fn op vs). split.
        -- unfold ids_get, read_id. rewrite Hx. cbn [lookup_id].
           assert (ident_eqb x x = true) as -> by (apply ident_eqb_eq; reflexivity). reflexivity.
        -- exists (S F). rewrite denote_unfold, Hop, Hpre, Hd. reflexivity.
      * apply String.eqb_neq in Ei. apply (avail_cons _ _ _ _ _ Hx Ei). apply Havail.
        rewrite map_app in Hi. destruct Hi as [H|H]; [left; exact H|].
        apply in_app_or in H as [H|[H|[]]]; [right; exact H | congruence].
    + intros op' H. apply HL. right. exact H.
    + exists env'. split.
      * cbn [sync_block map exec_stmts]. unfold synth_call, eval_expr, eval_call.
        rewrite Hid, Hr, Hf. unfold sync_block, synth_call in Hex. rewrite Hex, <- app_assoc. reflexivity.
      * rewrite <- app_assoc in Hav. exact Hav.
Qed.

Lemma ret_sync env rs :
  (forall r, In r rs -> avail ds pre args pids vids env r) ->
  exists o, build_ret env (map (fun v => (v, ids_get pids vids v)) rs) = Ok o /\
    forall r, In r rs -> exists v, map_get o r = Some v /\
      exists fuel, denote fuel ds pre args r = Some v.
Proof.
  induction rs as [|r rs IH]; intros Ha.
  - exists []. split; [reflexivity|]. intros r [].
  - destruct (Ha r (or_introl eq_refl)) as (v & Hr & Hd).
    destruct IH as (o & Ho & Hall); [intros r' H; apply Ha; right; exact H|].
    exists ((r, v) :: o). cbn [map build_ret]. rewrite Hr, Ho. split; [reflexivity|].
    intros r' Hr'. cbn [map_get]. destruct (String.eqb r' r) eqn:E.
    + apply String.eqb_eq in E. subst r'. exists v. auto.
    + destruct Hr' as [<-|H]; [rewrite String.eqb_refl in E; discriminate | apply Hall, H].
Qed.

End SyncRun.

Lemma ids_ok_nil lo c : ids_ok [] lo c.
Proof. split; intros; discriminate. Qed.

Lemma NoDup_map_inj {A B} (g : A -> B) l :
  NoDup l -> (forall a b, In a l -> In b l -> g a = g b -> a = b) -> NoDup (map g l).
Proof.
  induction l as [|a l IH]; intros Hnd Hinj; simpl; [constructor|].
  inversion Hnd as [|? ? Ha Hnd']; subst. constructor.
  - intros H. apply in_map_iff in H as (b & Hb & Hin).
    rewrite (Hinj b a (or_intror Hin) (or_introl eq_refl) Hb) in Hin. contradiction.
  - apply IH; [exact Hnd'|]. intros x y Hx Hy. apply Hinj; right; assumption.
Qed.

(** ** The calculator of a synchronous registry *)

(* The calculator of a synchronous registry, run. *)
Lemma compile_sync_run s reqs pre s1 f sf args :
  deps_wf (deps s) ->
  forallb (fun kv => negb (async (snd kv))) (deps s) = true ->
  compile s reqs pre = Ok (s1, f, sf) ->
  forallb (hasOwn args) (ex_params f) = true ->
  sf_isAsync sf = false /\
  exists o tr ops, invoke (deps s1) f args = (Ok o, tr) /\
    traverse (deps s) (sort reqs) (sort pre) = Some (ops, ex_params f) /\
    Permutation tr (map (id_of (sf_formulas sf)) ops) /\ NoDup tr /\
    forall r, In r reqs -> exists v, map_get o r = Some v /\
      exists fuel, denote fuel (deps s) pre args r = Some v.
Proof.
  intros Hwf Hsyncb Hc Hargs.
  assert (Hsync : forall k op, map_get (deps s) k = Some op -> async op = false).
  { intros k op H. apply map_get_In in H. rewrite forallb_forall in Hsyncb.
    apply Hsyncb in H. cbn in H. destruct (async op); [discriminate | reflexivity]. }
  unfold compile in Hc.
  destruct (linearize (deps s) (sort reqs) (sort pre)) as [l|] eqn:Hl; [|discriminate].
  destruct (linearize_sync _ _ _ _ Hwf Hsync Hl) as (ops & Ht & Hb & Hord & Hreg & Hperm & Hnd).
  destruct (traverse_closed _ _ _ _ _ Ht) as (Hops & Hparams & Hreqs).
  destruct (traverse_disjoint _ _ _ _ _ Ht) as [_ Hdisj].
  pose proof (traverse_params_sorted _ _ _ _ _ Ht) as Hsorted.
  unfold synthesize in Hc.
  destruct (assign_pids (l_params l)) as [pids count] eqn:Hp.
  rewrite (assign_vids_sync count _ Hb) in Hc.
  revert Hc. destruct (fold_left _ (flat_s (l_blocks l)) _) as [vids c2] eqn:Hv. intros Hc.
  unfold assign_pids in Hp.
  change (fold_left (fun st x => assign_id st ((fun y : name => y) x)) (l_params l) ([], 0)
          = (pids, count)) in Hp.
  destruct (assign_fold (fun y : name => y) _ _ _ _ _ 0 Hp (ids_ok_nil _ _) (le_n _)
              (NoDup_nil _)) as (Pok & _ & Pkeys & _ & Pcov & _).
  destruct (assign_fold outputs _ _ _ _ _ count Hv (ids_ok_nil _ _) (le_n _) (NoDup_nil _))
    as (Vok & _ & Vkeys & _ & Vcov & Vsub).
  assert (Hvids : forall o x, map_get vids o = Some x ->
                    In o ops /\ exists j, x = IdV j /\ count <= j).
  { intros o x Hox. split.
    - destruct (Vsub o ltac:(congruence)) as [H|H]; [exfalso; apply H; reflexivity|].
      apply (Permutation_in _ (Permutation_sym Hperm)), H.
    - destruct (proj1 Vok _ _ Hox) as (j & -> & Hj). exists j. split; [reflexivity | lia]. }
  assert (Hlinkok : forall k x, In (k, x) vids -> map_get (deps s) k <> None).
  { intros k x Hin. apply (In_map_get _ _ _ Vkeys) in Hin.
    destruct (Vsub k ltac:(congruence)) as [H|H]; [exfalso; apply H; reflexivity|].
    apply in_map_iff in H as (op & <- & Hop). rewrite (Hreg op Hop). discriminate. }
  destruct (link_ok (deps s) vids [] Hlinkok) as (fs & Hlink & L1 & _ & L3).
  unfold loadSource in Hc. cbn [deps set_req_cache sf_formulas] in Hc.
  rewrite Hlink in Hc. injection Hc as <- <- <-.
  assert (Hfs : forall o x, map_get vids o = Some x ->
                  exists op, map_get (deps s) o = Some op /\ lookup_id fs x = Some (fn op)).
  { intros o x Hox.
    destruct (lookup_id_some fs x (L3 _ _ (map_get_In _ _ _ Hox))) as [g Hg].
    destruct (L1 _ _ (lookup_id_In _ _ _ Hg)) as [[]|(k & op & Hk & Hop & ->)].
    apply (In_map_get _ _ _ Vkeys) in Hk. rewrite (proj2 Vok _ _ _ Hk Hox) in Hop.
    exists op. auto. }
  cbn [sf_isAsync sf_params ex_params sf_formulas] in *.
  split; [reflexivity|].
  rewrite Hsorted in Hargs |- *. rewrite forallb_forall in Hargs.
  unfold invoke. cbn [ex_params ex_formulas ex_body deps].
  replace (filter (fun p => negb (hasOwn args p)) (l_params l)) with (@nil name).
  2:{ destruct (filter (fun p => negb (hasOwn args p)) (l_params l)) as [|p ps] eqn:Ef;
        [reflexivity|].
      assert (Hin : In p (filter (fun p => negb (hasOwn args p)) (l_params l)))
        by (rewrite Ef; left; reflexivity).
      apply filter_In in Hin as [Hin Hneg]. rewrite (Hargs p Hin) in Hneg. discriminate. }
  unfold run_body. cbn [b_args b_calcs b_ret].
  change (flat_map (fun '(_, s_block) => sync_block pids vids s_block) (l_blocks l))
    with (gen_calcs pids vids false (l_blocks l)).
  rewrite gen_calcs_sync.
  destruct (run_sync (deps s) (sort pre) args ops (l_params l) pids vids fs count
              Hops Pok Hvids (proj2 Vok) Hfs
              (flat_s (l_blocks l)) (sort pre ++ l_params l) []
              (rev (map (fun '(k, x) => (x, arg_of args k)) pids)) [] Hord)
    as (env' & Hex & Hav).
  - intros x Hx. apply in_app_or in Hx. tauto.
  - intros i [Hi|[]]. exact (avail_args _ _ _ _ _ _ _ _ Hparams Hdisj Pok Pkeys Pcov Hvids i Hi).
  - intros op Hop. split; [exact (Hreg op Hop) | exact (Vcov op Hop)].
  - rewrite Hex.
    destruct (ret_sync (deps s) (sort pre) args pids vids env' (sort reqs)) as (o & Ho & Hall).
    { intros r Hr. apply Hav. destruct (Hreqs r Hr) as [H|H]; [right | left; exact H].
      apply (Permutation_in _ Hperm), H. }
    rewrite Ho. exists o, ([] ++ map (fun op => id_of vids (outputs op)) (flat_s (l_blocks l))), ops.
    split; [reflexivity|]. split; [exact Ht|]. split; [|split].
    + rewrite app_nil_l, <- (map_map outputs (id_of vids)).
      apply Permutation_map, Permutation_sym, Hperm.
    + rewrite app_nil_l, <- (map_map outputs (id_of vids)).
      apply NoDup_map_inj; [exact Hnd|]. intros a b Ha Hb' Hab.
      destruct (map_get vids a) as [x|] eqn:Ea; [|exfalso; apply in_map_iff in Ha as (op & <- & Hop); exact (Vcov op Hop Ea)].
      destruct (map_get vids b) as [y|] eqn:Eb; [|exfalso; apply in_map_iff in Hb' as (op & <- & Hop); exact (Vcov op Hop Eb)].
      unfold id_of in Hab. rewrite Ea, Eb in Hab. subst y. exact (proj2 Vok _ _ _ Ea Eb).
    + intros r Hr. destruct (Hall r (proj2 (In_sort r reqs) Hr)) as (v & Hv' & fuel & Hd).
      exists v. split; [exact Hv'|]. exists fuel.
      rewrite <- Hd. apply denote_pre_ext. intros x. symmetry. apply mem_sort.
Qed.

(** For a registry whose operations are all synchronous, the calculator
    [compile] returns is not async, and, called with every parameter it
    lists, it returns without error: the value it returns for each
    requested name is that name's reference value ([denote]: a formula
    applied to the values of its operation's inputs, a precomputed or
    unregistered name read from the arguments), and it invokes the
    formula of each required operation exactly once (the trace of calls
    is a permutation of their identifiers, without repetition).  The
    requested names and the inputs of the registered operations are plain,
    so the body text reads and returns the names themselves (see
    [synthesize]), and [args] is an ordinary object without an own
    [hasOwnProperty], so the wrapper's [args.hasOwnProperty(p)] is the
    method of [Object.prototype]. *)
Theorem compiled_sync_calculator_correct s reqs pre s1 f sf args :
  deps_wf (deps s) ->
  forallb (fun kv => negb (async (snd kv))) (deps s) = true ->
  forallb plain_name reqs = true -> plain_deps (deps s) = true ->
  compile s reqs pre = Ok (s1, f, sf) ->
  hasOwn args "hasOwnProperty" = false ->
  forallb (hasOwn args) (ex_params f) = true ->
  sf_isAsync sf = false /\
  exists o tr ops, invoke (deps s1) f args = (Ok o, tr) /\
    traverse (deps s) (sort reqs) (sort pre) = Some (ops, ex_params f) /\
    Permutation tr (map (id_of (sf_formulas sf)) ops) /\ NoDup tr /\
    forall r, In r reqs -> exists v, map_get o r = Some v /\
      exists fuel, denote fuel (deps s) pre args r = Some v.
Proof.
  intros Hwf Hsync _ _ Hc _ Hargs. exact (compile_sync_run s reqs pre s1 f sf args Hwf Hsync Hc Hargs).
Qed.


Lemma compiled_sync_calculator_correct_witness :
  exists s1 f sf, compile ex_compiler ["addOne"] [] = Ok (s1, f, sf) /\
    forallb (hasOwn [("x", VNum 3)]) (ex_params f) = true /\ sf_isAsync sf = false.
Proof.
  do 3 eexists. split; [reflexivity|]. split; [reflexivity|].
  exact (proj1 (compiled_sync_calculator_correct ex_compiler ["addOne"] [] _ _ _ [("x", VNum 3)]
                  (make_deps_wf _) eq_refl eq_refl eq_refl eq_refl eq_refl eq_refl)).
Defined.

(** ** [compile] never fails to link *)

Lemma lin_pass_registered ds c nodes c' a s n :
  deps_wf ds -> lin_pass ds c nodes = (c', a, s, n) ->
  forall op, In op a \/ In op s -> map_get ds (outputs op) = Some op.
Proof.
  intros Hwf. revert c c' a s n.
  induction nodes as [|nd rest IH]; intros c c' a s n E; simpl in E.
  - injection E as <- <- <- <-. intros op [[]|[]].
  - destruct (filter (fun v => negb (mem v c)) (nd_inputs nd)) as [|x xs].
    + destruct (lin_pass ds (nd_outputs nd :: c) rest) as [[[c1 a1] s1] n1] eqn:Er.
      specialize (IH _ _ _ _ _ Er).
      destruct (map_get ds (nd_outputs nd)) as [op0|] eqn:Hop; [|injection E as <- <- <- <-; exact IH].
      assert (H0 : map_get ds (outputs op0) = Some op0) by (rewrite (Hwf _ _ Hop); exact Hop).
      destruct (nd_async nd); injection E as <- <- <- <-.
      * intros op [[<-|H]|H]; [exact H0 | apply IH; auto | apply IH; auto].
      * intros op [H|[<-|H]]; [apply IH; auto | exact H0 | apply IH; auto].
    + destruct (lin_pass ds c rest) as [[[c1 a1] s1] n1] eqn:Er.
      injection E as <- <- <- <-. exact (IH _ _ _ _ _ Er).
Qed.

Lemma lin_loop_registered fuel ds c nodes blocks blocks' :
  deps_wf ds -> lin_loop fuel ds c nodes blocks = Some blocks' ->
  (forall k, In k (sched_outputs blocks) -> map_get ds k <> None) ->
  forall k, In k (sched_outputs blocks') -> map_get ds k <> None.
Proof.
  intros Hwf. revert c nodes blocks.
  induction fuel as [|fuel IH]; intros c nodes blocks E Hb.
  - destruct nodes; simpl in E; [injection E as <-; exact Hb | discriminate].
  - destruct nodes as [|nd rest]; cbn [lin_loop] in E; [injection E as <-; exact Hb|].
    destruct (lin_pass ds c (nd :: rest)) as [[[c1 a] s] n] eqn:Ep.
    refine (IH _ _ _ E _). rewrite sched_outputs_app. intros k Hk.
    apply in_app_or in Hk as [Hk|Hk]; [apply Hb, Hk|].
    cbn [sched_outputs flat_map] in Hk. rewrite app_nil_r in Hk.
    apply in_app_or in Hk as [Hk|Hk]; apply in_map_iff in Hk as (op & <- & Hop);
      rewrite (lin_pass_registered _ _ _ _ _ _ _ Hwf Ep op); try discriminate; auto.
Qed.

Lemma In_map_get_some {A} (m : JSMap A) k v : In (k, v) m -> map_get m k <> None.
Proof.
  induction m as [|[k' v'] m IH]; simpl; [intros []|].
  destruct (String.eqb k k') eqn:E; [discriminate|].
  intros [H|H]; [injection H as -> _; rewrite String.eqb_refl in E; discriminate | auto].
Qed.

Lemma assign_keys {X} (key : X -> name) l m c m' c' k :
  fold_left (fun st x => assign_id st (key x)) l (m, c) = (m', c') ->
  map_get m' k <> None -> map_get m k <> None \/ In k (map key l).
Proof.
  revert m c. induction l as [|x l IH]; intros m c E Hk; simpl in E.
  - injection E as <- <-. left. exact Hk.
  - destruct (IH _ _ E Hk) as [H|H]; [|right; right; exact H].
    rewrite map_get_set in H. destruct (String.eqb k (key x)) eqn:Ek.
    + right. left. symmetry. apply String.eqb_eq, Ek.
    + left. exact H.
Qed.

Lemma assign_vids_keys count blocks vids c isA k :
  assign_vids count blocks = (vids, c, isA) -> map_get vids k <> None ->
  In k (sched_outputs blocks).
Proof.
  unfold assign_vids.
  assert (G : forall (m0 : JSMap ident) c0 isA0 m' c' isA',
            fold_left (fun '(m, c, isA) '(a_block, s_block) =>
               let st1 := fold_left (fun st op => assign_id st (outputs op)) a_block (m, c) in
               let isA' := match a_block with [] => isA | _ :: _ => true end in
               let '(m2, c2) := fold_left (fun st op => assign_id st (outputs op)) s_block st1 in
               (m2, c2, isA')) blocks (m0, c0, isA0) = (m', c', isA') ->
            map_get m' k <> None -> map_get m0 k <> None \/ In k (sched_outputs blocks)).
  { induction blocks as [|[a sb] bs IH]; intros m0 c0 isA0 m' c' isA' E Hk; simpl in E.
    - injection E as <- _ _. left. exact Hk.
    - destruct (fold_left (fun st op => assign_id st (outputs op)) a (m0, c0)) as [m1 c1] eqn:E1.
      destruct (fold_left (fun st op => assign_id st (outputs op)) sb (m1, c1)) as [m2 c2] eqn:E2.
      destruct (IH _ _ _ _ _ _ E Hk) as [H|H].
      + destruct (assign_keys _ _ _ _ _ _ _ E2 H) as [H'|H'].
        * destruct (assign_keys _ _ _ _ _ _ _ E1 H') as [H''|H''];
            [left; exact H'' | right; cbn [sched_outputs flat_map]; apply in_or_app; left;
                                apply in_or_app; left; exact H''].
        * right. cbn [sched_outputs flat_map]. apply in_or_app. left. apply in_or_app. right. exact H'.
      + right. cbn [sched_outputs flat_map]. apply in_or_app. right. exact H. }
  intros E Hk. destruct (G _ _ _ _ _ _ E Hk) as [H|H]; [exfalso; apply H; reflexivity | exact H].
Qed.

(** [compile] never throws: the [deps.get(k)!.fn] of [loadSource] finds an
    operation for every formula the generated record names, so [compile]
    returns a calculator, unless [linearize] runs forever, and then so
    does [compile].  The requested names and the inputs of the registered
    operations are plain: the body text then parses (see [synthesize]),
    while a name with a quote or a line break makes [new Function] throw
    a [SyntaxError]. *)
Theorem compile_never_throws s reqs pre :
  deps_wf (deps s) ->
  forallb plain_name reqs = true -> plain_deps (deps s) = true ->
  (exists s1 f sf, compile s reqs pre = Ok (s1, f, sf)) \/
  (linearize (deps s) (sort reqs) (sort pre) = None /\ compile s reqs pre = Diverges).
Proof.
  intros Hwf _ _. unfold compile.
  destruct (linearize (deps s) (sort reqs) (sort pre)) as [l|] eqn:Hl; [left|right; auto].
  assert (Hsched : forall k, In k (sched_outputs (l_blocks l)) -> map_get (deps s) k <> None).
  { revert Hl. unfold linearize, linearize_fuel.
    destruct (traverse _ _ _) as [[ops ps]|]; [|discriminate].
    destruct (lin_loop _ _ _ _ _) as [blocks|] eqn:El; [|discriminate].
    intros H. injection H as <-. cbn [l_blocks].
    refine (lin_loop_registered _ _ _ _ _ _ Hwf El _). intros k []. }
  unfold synthesize.
  destruct (assign_pids (l_params l)) as [pids count].
  destruct (assign_vids count (l_blocks l)) as [[vids c] isA] eqn:Hv.
  unfold loadSource. cbn [deps set_req_cache sf_formulas].
  destruct (link_ok (deps s) vids []) as (fs & -> & _).
  - intros k x Hin. apply Hsched. apply (assign_vids_keys _ _ _ _ _ _ Hv).
    exact (In_map_get_some _ _ _ Hin).
  - do 3 eexists. reflexivity.
Qed.

Lemma compile_never_throws_witness :
  deps_wf (deps mixed_compiler) /\ plain_deps (deps mixed_compiler) = true /\
  ((exists s1 f sf, compile mixed_compiler ["s"; "t"] [] = Ok (s1, f, sf)) \/
   (linearize (deps mixed_compiler) (sort ["s"; "t"]) (sort []) = None /\
    compile mixed_compiler ["s"; "t"] [] = Diverges)).
Proof.
  split; [apply make_deps_wf|]. split; [reflexivity|].
  exact (compile_never_throws mixed_compiler ["s"; "t"] [] (make_deps_wf _) eq_refl eq_refl).
Defined.

(** ** [calculate] on a new compiler *)





